(** * SUKERU: four-corner flood-fill matte (sukeru.py)

    A shallow embedding of [ImageMatteProcessor] from [src/sukeru.py].

    The image transform of [_process_single_image] (lines 55-79) is a pure
    function on RGBA pixel grids; the batch driver [process_directory]
    (lines 29-48) is embedded in a small state-and-exception monad over an
    abstract file system.

    [ImageDraw.floodfill], [_color_diff] and pixel access are Pillow library
    code called from line 66; they are embedded here after Pillow's
    [ImageDraw.py] and the bounds check of its pixel access object. *)

From Stdlib Require Import ZArith Lia Ascii.
From stdpp Require Import base option list gmap sets strings.

Local Open Scope Z_scope.

(** * Part I: the program *)

(** ** Data model *)

(** An RGBA pixel, as the 4-tuple Pillow hands out for mode "RGBA". *)
Definition pixel : Type := Z * Z * Z * Z.

(** An [(x, y)] coordinate. *)
Definition coord : Type := Z * Z.

(** An image in mode "RGBA": [img.size] and the row-major pixel sequence
    that [getdata] yields and [putdata] stores. *)
Record image := Image {
  width : Z;
  height : Z;
  data : list pixel
}.

Definition wf_image (img : image) : Prop :=
  0 ≤ width img ∧ 0 ≤ height img ∧
  length (data img) = Z.to_nat (width img * height img).

(** [in_bounds img (x, y)]: the coordinate names a pixel of the grid. *)
Definition in_bounds (img : image) (xy : coord) : Prop :=
  0 ≤ xy.1 < width img ∧ 0 ≤ xy.2 < height img.

(** ** Pixel access (Pillow's [PixelAccess])

    A negative index counts from the far side; what is still outside the
    grid raises [IndexError], rendered as [None]. *)
Definition locate (img : image) (xy : coord) : option nat :=
  let '(x, y) := xy in
  let x := if x <? 0 then width img + x else x in
  let y := if y <? 0 then height img + y else y in
  if (x <? 0) || (width img <=? x) || (y <? 0) || (height img <=? y)
  then None
  else Some (Z.to_nat (y * width img + x)).

(** [pixel[x, y]] *)
Definition getpixel (img : image) (xy : coord) : option pixel :=
  i ← locate img xy; data img !! i.

(** [pixel[x, y] = value]; the fill only stores where the load from the
    same coordinate has just succeeded. *)
Definition putpixel (img : image) (xy : coord) (value : pixel) : image :=
  match locate img xy with
  | Some i => Image (width img) (height img) (<[i := value]> (data img))
  | None => img
  end.

(** ** [ImageDraw._color_diff]: 1-norm distance over all four bands *)
Definition color_diff (color1 color2 : pixel) : Z :=
  let '(r1, g1, b1, a1) := color1 in
  let '(r2, g2, b2, a2) := color2 in
  Z.abs (r1 - r2) + Z.abs (g1 - g2) + Z.abs (b1 - b2) + Z.abs (a1 - a2).

(** ** [ImageDraw.floodfill] with [border=None] *)

(** The four neighbours, in the order the inner [for] enumerates them. *)
Definition neighbours (xy : coord) : list coord :=
  let '(x, y) := xy in [(x + 1, y); (x - 1, y); (x, y + 1); (x, y - 1)].

(** What one sweep over [edge] mutates: the pixels, [full_edge] and
    [new_edge]. *)
Record fill_state := FillState {
  fs_img : image;
  fs_full : gset coord;
  fs_new : gset coord
}.

(** Body of the inner [for s, t in ...] loop. *)
Definition visit (background value : pixel) (thresh : Z)
    (st : fill_state) (st_xy : coord) : fill_state :=
  let '(s, t) := st_xy in
  if bool_decide ((s, t) ∈ fs_full st) || (s <? 0) || (t <? 0) then st
  else
    match getpixel (fs_img st) (s, t) with
    | None => st
    | Some p =>
        let full := {[ (s, t) ]} ∪ fs_full st in
        if color_diff p background <=? thresh
        then FillState (putpixel (fs_img st) (s, t) value) full
                       ({[ (s, t) ]} ∪ fs_new st)
        else FillState (fs_img st) full (fs_new st)
    end.

(** [for x, y in edge: for s, t in ...: ...], [edge] being given in the
    order in which the set is iterated. *)
Definition sweep (background value : pixel) (thresh : Z)
    (st : fill_state) (edge : list coord) : fill_state :=
  foldl (λ st xy, foldl (visit background value thresh) st (neighbours xy))
        st edge.

(** [while edge: ...].  A Python set is iterated in an order of its own:
    [order n edge] is the order in which [edge] is gone through when [n]
    rounds are left.  The loop is bounded by [fuel]; [None] means the bound
    was reached with [edge] still non-empty. *)
Fixpoint flood_loop (order : nat → gset coord → list coord) (fuel : nat)
    (background value : pixel) (thresh : Z)
    (img : image) (edge full_edge : gset coord) : option image :=
  match fuel with
  | O => None
  | S fuel' =>
      if decide (edge = ∅) then Some img
      else
        let st := sweep background value thresh
                        (FillState img full_edge ∅) (order fuel' edge) in
        flood_loop order fuel' background value thresh
                   (fs_img st) (fs_new st) edge
  end.

(** [floodfill(image, xy, value, thresh=thresh)].  The image is mutated in
    place, so the result is the image after the call.  The bound handed to
    the loop, two more than the number of pixels, is never reached
    ([flood_loop_fills], [floodfill_negative]). *)
Definition floodfill_in (order : nat → gset coord → list coord)
    (img : image) (xy : coord) (value : pixel) (thresh : Z) : option image :=
  match getpixel img xy with
  | None => Some img (* seed point outside image *)
  | Some background =>
      if color_diff value background <=? thresh
      then Some img (* seed point already has fill color *)
      else flood_loop order (2 + length (data img)) background value thresh
                      (putpixel img xy value) {[ xy ]} ∅
  end.

(** The order of [elements] is as good as any other
    ([floodfill_any_order]). *)
Definition floodfill : image → coord → pixel → Z → option image :=
  floodfill_in (λ _, elements).

(** ** The transform of [_process_single_image] (lines 55-79) *)

(** [self.chroma_color + (255,)] *)
Definition fill_value : pixel := (0, 255, 0, 255).

(** The pixel line 75 appends. *)
Definition transparent : pixel := (255, 255, 255, 0).

(** Lines 59-62, with [width, height = img.size]. *)
Definition seed_points (img : image) : list coord :=
  [(0, 0); (width img - 1, 0);
   (0, height img - 1); (width img - 1, height img - 1)].

(** [for pt in seed_points: ImageDraw.floodfill(img, pt, ...)] *)
Fixpoint fill_from (seeds : list coord) (img : image) (thresh : Z)
    : option image :=
  match seeds with
  | [] => Some img
  | pt :: seeds' =>
      img' ← floodfill img pt fill_value thresh;
      fill_from seeds' img' thresh
  end.

Definition fill_corners (img : image) (thresh : Z) : option image :=
  fill_from (seed_points img) img thresh.

(** [item[0] == 0 and item[1] == 255 and item[2] == 0] *)
Definition is_chroma (item : pixel) : bool :=
  let '(r, g, b, _) := item in (r =? 0) && (g =? 255) && (b =? 0).

Definition replace_item (item : pixel) : pixel :=
  if is_chroma item then transparent else item.

(** [img.putdata(new_data)], [new_data] being as long as the image. *)
Definition putdata (img : image) (new_data : list pixel) : image :=
  Image (width img) (height img) new_data.

(** Second pass, lines 69-79. *)
Definition replace_chroma (img : image) : image :=
  putdata img (replace_item <$> data img).

(** Lines 55-79: the four fills, then the replacement pass. *)
Definition apply_matte (img : image) (thresh : Z) : option image :=
  img' ← fill_corners img thresh; Some (replace_chroma img').

(** ** The batch driver ([process_directory], lines 29-48) *)

(** Patterns of [Path.glob], as far as the program uses them: [*], a
    literal character, a character class. *)
Inductive glob_token :=
| Star
| Lit (c : Ascii.ascii)
| OneOf (cs : list Ascii.ascii).

Fixpoint glob_match (pat : list glob_token) (name : string) : bool :=
  match pat with
  | [] => match name with EmptyString => true | String _ _ => false end
  | Star :: pat' =>
      (fix star (name : string) : bool :=
         glob_match pat' name ||
         match name with
         | EmptyString => false
         | String _ name' => star name'
         end) name
  | Lit c :: pat' =>
      match name with
      | String d name' => Ascii.eqb d c && glob_match pat' name'
      | EmptyString => false
      end
  | OneOf cs :: pat' =>
      match name with
      | String d name' => existsb (Ascii.eqb d) cs && glob_match pat' name'
      | EmptyString => false
      end
  end.

(** ['*.[pP][nN][gG]'], ['*.[jJ][pP][gG]'], ['*.[jJ][pP][eE][gG]'] *)
Definition png_pattern : list glob_token :=
  [Star; Lit "."; OneOf ["p"; "P"]; OneOf ["n"; "N"]; OneOf ["g"; "G"]]%char.

Definition jpg_pattern : list glob_token :=
  [Star; Lit "."; OneOf ["j"; "J"]; OneOf ["p"; "P"]; OneOf ["g"; "G"]]%char.

Definition jpeg_pattern : list glob_token :=
  [Star; Lit "."; OneOf ["j"; "J"]; OneOf ["p"; "P"]; OneOf ["e"; "E"];
   OneOf ["g"; "G"]]%char.

(** [directory.glob(pattern)] over the names of the directory's entries. *)
Definition glob (entries : list string) (pat : list glob_token)
    : list string :=
  filter (λ name, glob_match pat name = true) entries.

(** Lines 34-36. *)
Definition find_image_files (entries : list string) : list string :=
  glob entries png_pattern ++ glob entries jpg_pattern ++
  glob entries jpeg_pattern.

(** [world] is the file system; [exn] stands for the exceptions that
    opening and saving raise, all of them instances of [Exception], the
    class line 45 catches. *)
Section Batch.
Context {world exn : Type}.

(** The environment: the names in [input_path]; [Image.open] followed by
    [convert("RGBA")], which yields the decoded image or raises;
    [img.save], which changes the file system and may raise; and
    [Path.stem]. *)
Variable listdir : world → list string.
Variable image_open : string → world → exn + image.
Variable image_save : string → image → world → option exn * world.
Variable stem : string → string.

(** The fields of the processor. *)
Variables (input_path output_path : string) (threshold : Z).

(** What the logger is asked to write: the start message (line 31), the
    warning that nothing was found (line 39), the error of one file with
    [img_path.name] and the exception (line 46), the name of a file saved
    (line 84), the completion message (line 48). *)
Inductive log_record :=
| info_start (input output : string)
| warning_no_images
| error_failed (name : string) (e : exn)
| info_saved (name : string)
| info_done.

Record state := State {
  st_world : world;
  st_log : list log_record
}.

Inductive result (A : Type) :=
| Returned (a : A)
| Raised (e : exn).
Arguments Returned {A} a.
Arguments Raised {A} e.

(** Computations that read and change the state and may raise. *)
Definition M (A : Type) : Type := state → result A * state.

#[local] Instance M_ret : MRet M := λ A a st, (Returned a, st).

#[local] Instance M_bind : MBind M := λ A B f m st,
  match m st with
  | (Returned a, st') => f a st'
  | (Raised e, st') => (Raised e, st')
  end.

(** [try: body except Exception as e: handler(e)] *)
Definition try_except {A} (body : M A) (handler : exn → M A) : M A :=
  λ st,
    match body st with
    | (Returned a, st') => (Returned a, st')
    | (Raised e, st') => handler e st'
    end.

Definition log (r : log_record) : M unit :=
  λ st, (Returned (), State (st_world st) (st_log st ++ [r])).

Definition open_rgba (name : string) : M image :=
  λ st,
    match image_open name (st_world st) with
    | inl e => (Raised e, st)
    | inr img => (Returned img, st)
    end.

Definition save_png (name : string) (img : image) : M unit :=
  λ st,
    match image_save name img (st_world st) with
    | (Some e, w) => (Raised e, State w (st_log st))
    | (None, w) => (Returned (), State w (st_log st))
    end.

(** Lines 55-79 on the opened image.  [apply_matte] yields an image for
    every input ([apply_matte_total]); [default] only unwraps it. *)
Definition transform (img : image) : image :=
  default img (apply_matte img threshold).

(** Lines 50-84: open and convert, transform, save, log. *)
Definition _process_single_image (img_path : string) : M unit :=
  img ← open_rgba img_path;
  let output_file := (stem img_path +:+ "_transparent.png")%string in
  save_png output_file (transform img);;
  log (info_saved output_file).

(** [for img_path in image_files: ...] *)
Fixpoint for_each (image_files : list string) (body : string → M unit)
    : M unit :=
  match image_files with
  | [] => mret ()
  | img_path :: rest => body img_path;; for_each rest body
  end.

(** [self.input_path.glob(...)] three times over, lines 34-36. *)
Definition image_files_found : M (list string) :=
  λ st, (Returned (find_image_files (listdir (st_world st))), st).

(** Lines 29-48. *)
Definition process_directory : M unit :=
  log (info_start input_path output_path);;
  image_files ← image_files_found;
  match image_files with
  | [] => log warning_no_images
  | _ =>
      for_each image_files (λ img_path,
        try_except (_process_single_image img_path)
                   (λ e, log (error_failed img_path e)));;
      log info_done
  end.

End Batch.

Arguments Returned {exn A} a.
Arguments Raised {exn A} e.

(** * Part II: the vocabulary of the properties *)

(** ** Connectivity

    [reach img bg t seed c]: [c] is joined to [seed] by a chain of
    4-adjacent pixels of [img] that are all within [t] of the colour [bg]. *)
Inductive reach (img : image) (bg : pixel) (t : Z) (seed : coord)
    : coord → Prop :=
| reach_seed p :
    in_bounds img seed → getpixel img seed = Some p →
    color_diff p bg ≤ t → reach img bg t seed seed
| reach_step c c' p :
    reach img bg t seed c → c' ∈ neighbours c →
    in_bounds img c' → getpixel img c' = Some p →
    color_diff p bg ≤ t → reach img bg t seed c'.

(** [connected img t seed c]: as [reach], the colour being the one the
    seed has in [img]. *)
Definition connected (img : image) (t : Z) (seed c : coord) : Prop :=
  ∃ bg, getpixel img seed = Some bg ∧ reach img bg t seed c.

(** A seed that, when it names a pixel at all, names it without wrapping
    around. *)
Definition proper_seed (img : image) (s : coord) : Prop :=
  ∀ i, locate img s = Some i → in_bounds img s.

(** [region img t s c]: the fill launched from [s] on [img] gets past its
    first test and [c] is joined to [s]. *)
Definition region (img : image) (t : Z) (s c : coord) : Prop :=
  ∃ bg, getpixel img s = Some bg ∧ t < color_diff fill_value bg ∧
        reach img bg t s c.

(** The pixels the four fills store to, on an image whose corner pixels all
    have the colour [bg]. *)
Definition corner_joined (img : image) (bg : pixel) (t : Z) (c : coord)
    : Prop :=
  ∃ s, s ∈ seed_points img ∧ reach img bg t s c.

(** [settled out t]: around the corners of [out] whose fill would run, only
    the placeholder is within [t] of the corner's colour. *)
Definition settled (out : image) (t : Z) : Prop :=
  ∀ s bg c p, s ∈ seed_points out → getpixel out s = Some bg →
    t < color_diff fill_value bg →
    getpixel out c = Some p → color_diff p bg ≤ t → p = transparent.

(** [fills_exactly img t s img']: [img'] is [img] with the fill colour
    stored to the pixels joined to [s], and to no other. *)
Definition fills_exactly (img : image) (t : Z) (s : coord) (img' : image)
    : Prop :=
  width img' = width img ∧ height img' = height img ∧
  ∀ c, in_bounds img c →
    (connected img t s c ∧ getpixel img' c = Some fill_value) ∨
    (¬ connected img t s c ∧ getpixel img' c = getpixel img c).

(** The outcome of one [floodfill] call of line 66 on the image as it
    finds it. *)
Definition fill_outcome (img : image) (t : Z) (s : coord) (img' : image)
    : Prop :=
  floodfill img s fill_value t = Some img' ∧
  match getpixel img s with
  | None => img' = img
  | Some bg =>
      (color_diff fill_value bg ≤ t ∧ img' = img) ∨
      (t < color_diff fill_value bg ∧ fills_exactly img t s img')
  end.

(** The calls of the loop of lines 65-66, each on the image the one before
    has left. *)
Inductive fill_run (t : Z) : list coord → image → image → Prop :=
| fill_run_nil img : fill_run t [] img img
| fill_run_cons s seeds img img1 img' :
    fill_outcome img t s img1 → fill_run t seeds img1 img' →
    fill_run t (s :: seeds) img img'.

(** ** Thresholds compared *)

(** [made_transparent img t c]: the transform with threshold [t] has the
    placeholder at [c]. *)
Definition made_transparent (img : image) (t : Z) (c : coord) : Prop :=
  ∃ out, apply_matte img t = Some out ∧ getpixel out c = Some transparent.

Definition threshold_monotone (img : image) (t1 t2 : Z) : Prop :=
  ∀ c, in_bounds img c → made_transparent img t1 c → made_transparent img t2 c.

(** ** File names and the three patterns *)

Definition to_lower (c : ascii) : ascii :=
  let n := nat_of_ascii c in
  if (65 <=? n)%nat && (n <=? 90)%nat then ascii_of_nat (n + 32) else c.

Fixpoint lowercase (s : string) : string :=
  match s with
  | EmptyString => EmptyString
  | String c s' => String (to_lower c) (lowercase s')
  end.

(** [name] ends in a dot and, whatever the case of its letters, [ext]. *)
Definition has_extension (ext name : string) : Prop :=
  ∃ front suffix, name = (front +:+ "." +:+ suffix)%string ∧
                  lowercase suffix = ext.

Definition is_image_name (name : string) : Prop :=
  has_extension "png" name ∨ has_extension "jpg" name ∨
  has_extension "jpeg" name.

(** ** The batch driver, file by file *)

Section BatchSpec.
Context {world exn : Type}.
Variable image_open : string → world → exn + image.
Variable image_save : string → image → world → option exn * world.
Variable stem : string → string.
Variable threshold : Z.

(** [attempted files w entries w']: going through [files] from the file
    system [w], each file in its turn is opened, transformed and saved; the
    file system ends as [w'] and [entries] is what was logged, one record
    per file: the error that opening or saving raised, or the name of the
    file saved. *)
Inductive attempted
    : list string → world → list (@log_record exn) → world → Prop :=
| attempted_nil w : attempted [] w [] w
| attempted_unreadable name rest w e entries w' :
    image_open name w = inl e →
    attempted rest w entries w' →
    attempted (name :: rest) w (error_failed name e :: entries) w'
| attempted_unwritable name rest w img out e w1 entries w' :
    image_open name w = inr img →
    apply_matte img threshold = Some out →
    image_save (stem name +:+ "_transparent.png")%string out w
      = (Some e, w1) →
    attempted rest w1 entries w' →
    attempted (name :: rest) w (error_failed name e :: entries) w'
| attempted_saved name rest w img out w1 entries w' :
    image_open name w = inr img →
    apply_matte img threshold = Some out →
    image_save (stem name +:+ "_transparent.png")%string out w
      = (None, w1) →
    attempted rest w1 entries w' →
    attempted (name :: rest) w
      (info_saved (stem name +:+ "_transparent.png")%string :: entries) w'.

End BatchSpec.

(** ** Invariants of the fill loop and of the four fills *)

(** Number of pixels of a sequence within [t] of [bg]: the loop's measure. *)
Fixpoint count_close (bg : pixel) (t : Z) (l : list pixel) : nat :=
  match l with
  | [] => O
  | p :: l' =>
      if color_diff p bg <=? t then S (count_close bg t l')
      else count_close bg t l'
  end.

(** Throughout, [img0] is the image as [floodfill] finds it, [bg] the
    colour of its seed pixel and [value] the fill colour. *)
Section FloodInvariants.
Variables (img0 : image) (seed : coord) (bg value : pixel) (thresh : Z).

(** A pixel the loop will not store to any more. *)
Definition shut (img : image) (c : coord) : Prop :=
  ∀ p, getpixel img c = Some p → thresh < color_diff p bg.

(** What every state of a sweep satisfies; [n] bounds the measure. *)
Record base_inv (n : nat) (st : fill_state) : Prop := {
  bi_width : width (fs_img st) = width img0;
  bi_height : height (fs_img st) = height img0;
  bi_length : length (data (fs_img st)) = length (data img0);
  bi_pix : ∀ c, in_bounds img0 c →
    getpixel (fs_img st) c = getpixel img0 c ∨
    (getpixel (fs_img st) c = Some value ∧ reach img0 bg thresh seed c);
  bi_seed : getpixel (fs_img st) seed = Some value;
  bi_full : ∀ c, c ∈ fs_full st → shut (fs_img st) c;
  bi_new : ∀ c, c ∈ fs_new st →
    reach img0 bg thresh seed c ∧ shut (fs_img st) c;
  bi_count :
    (count_close bg thresh (data (fs_img st))
     + (if decide (fs_new st = ∅) then 0 else 1) ≤ n)%nat
}.

(** Every filled pixel that still has a fillable neighbour is waiting in
    [rest] or in [new_edge]. *)
Definition front (st : fill_state) (rest : list coord) : Prop :=
  ∀ c c' p, c' ∈ neighbours c → in_bounds img0 c' →
    reach img0 bg thresh seed c →
    getpixel (fs_img st) c = Some value →
    getpixel (fs_img st) c' = Some p → color_diff p bg ≤ thresh →
    c ∈ rest ∨ c ∈ fs_new st.

(** What holds each time the [while] test is reached. *)
Record loop_inv (img : image) (edge full : gset coord) : Prop := {
  li_width : width img = width img0;
  li_height : height img = height img0;
  li_length : length (data img) = length (data img0);
  li_pix : ∀ c, in_bounds img0 c →
    getpixel img c = getpixel img0 c ∨
    (getpixel img c = Some value ∧ reach img0 bg thresh seed c);
  li_seed : getpixel img seed = Some value;
  li_edge : ∀ c, c ∈ edge → reach img0 bg thresh seed c ∧ shut img c;
  li_full : ∀ c, c ∈ full → shut img c;
  li_front : ∀ c c' p, c' ∈ neighbours c → in_bounds img0 c' →
    reach img0 bg thresh seed c →
    getpixel img c = Some value →
    getpixel img c' = Some p → color_diff p bg ≤ thresh → c ∈ edge
}.

End FloodInvariants.

(** What the fills so far have done to [img0]. *)
Record fills_inv (img0 img : image) (t : Z) (corners : list coord)
    : Prop := {
  fi_width : width img = width img0;
  fi_height : height img = height img0;
  fi_length : length (data img) = length (data img0);
  fi_pix : ∀ c, in_bounds img0 c →
    getpixel img c = getpixel img0 c ∨
    (getpixel img c = Some fill_value ∧ ∃ s, s ∈ corners ∧ region img0 t s c)
}.

(** The same, for corners of the one colour [bg]; [seeded] holds of the
    seeds dealt with. *)
Record same_inv (img0 img : image) (bg : pixel) (t : Z)
    (seeded : coord → Prop) : Prop := {
  si_width : width img = width img0;
  si_height : height img = height img0;
  si_length : length (data img) = length (data img0);
  si_pix : ∀ c, in_bounds img0 c →
    (getpixel img c = Some fill_value ∧
     ∃ s, seeded s ∧ reach img0 bg t s c) ∨
    (getpixel img c = getpixel img0 c ∧
     ¬ ∃ s, seeded s ∧ reach img0 bg t s c)
}.

(** ** Inputs of the examples *)

(** One pixel, within 10 of the fill colour and not within 5. *)
Definition near_green_1x1 : image := Image 1 1 [(10, 255, 0, 255)].

(** Reds of growing strength, all far from the fill colour. *)
Definition shade (v : Z) : pixel := (v, 0, 0, 255).

(** The top right corner is within 10 of the top left one, by way of the
    bottom row; the pixel between them is within 5 of the right one only. *)
Definition detour_3x2 : image :=
  Image 3 2 [shade 100; shade 115; shade 110;
             shade 100; shade 100; shade 100].

Definition black : pixel := (0, 0, 0, 255).

Definition faint : pixel := (255, 255, 255, 50).

(** A faint pixel between two black corners. *)
Definition faint_3x1 : image := Image 3 1 [black; faint; black].

Definition white : pixel := (255, 255, 255, 255).

Definition red : pixel := (255, 0, 0, 255).

(** The scenario of the specification, and what it must become. *)
Definition scenario_4x4 : image :=
  Image 4 4 [white; white; white; white;
             white; red;   red;   white;
             white; red;   red;   white;
             white; white; white; white].

Definition scenario_4x4_out : image :=
  Image 4 4 [transparent; transparent; transparent; transparent;
             transparent; red;         red;         transparent;
             transparent; red;         red;         transparent;
             transparent; transparent; transparent; transparent].

Definition border_4x4 : list coord :=
  [(0, 0); (1, 0); (2, 0); (3, 0); (0, 1); (3, 1);
   (0, 2); (3, 2); (0, 3); (1, 3); (2, 3); (3, 3)].

Definition centre_4x4 : list coord := [(1, 1); (2, 1); (1, 2); (2, 2)].

Definition greenish : pixel := (10, 255, 0, 255).

Definition greenish_2x2 : image :=
  Image 2 2 [greenish; greenish; greenish; greenish].

(** Two corners close to the fill colour: the left one 20 from it, the
    right one 10 from it and 10 from the left one. *)
Definition greenish_pair : image :=
  Image 2 1 [(20, 255, 0, 255); greenish].

(** A directory of three entries, the second of which does not decode;
    the file system is the list of the files saved. *)
Definition three_entries (_ : list string) : list string :=
  ["good.png"; "corrupt.png"; "good2.jpg"]%string.

Definition open_unless_corrupt (name : string) (_ : list string)
    : string + image :=
  if String.eqb name "corrupt.png" then inl "cannot identify image file"%string
  else inr scenario_4x4.

Definition save_always (name : string) (_ : image) (w : list string)
    : option string * list string :=
  (None, w ++ [name]).

(** A directory without image files. *)
Definition no_images (_ : list string) : list string :=
  ["notes.txt"; "png"; "photo.png.bak"]%string.

(** ** [Path.stem] and further vocabulary *)

(** [str.rfind(c)]: the index of the last [c]; [None] stands for -1. *)
Fixpoint rfind (c : ascii) (s : string) : option nat :=
  match s with
  | EmptyString => None
  | String d s' =>
      match rfind c s' with
      | Some i => Some (S i)
      | None => if Ascii.eqb d c then Some O else None
      end
  end.

(** [PurePath.stem] of pathlib (CPython up to 3.13), on the name of a file:
    with [i = name.rfind('.')], the name up to [i] if
    [0 < i < len(name) - 1], and else the whole name.  Line 82 takes
    [img_path.stem]. *)
Definition path_stem (name : string) : string :=
  match rfind "." name with
  | Some i =>
      if (0 <? i)%nat && (i <? String.length name - 1)%nat
      then String.substring 0 i name
      else name
  | None => name
  end.

(** A pixel of 8-bit bands, as every pixel of an "RGBA" image is. *)
Definition eight_bit (p : pixel) : Prop :=
  let '(r, g, b, a) := p in
  0 ≤ r ≤ 255 ∧ 0 ≤ g ≤ 255 ∧ 0 ≤ b ≤ 255 ∧ 0 ≤ a ≤ 255.

(** The scenario after the fill from its top left corner. *)
Definition scenario_4x4_filled : image :=
  Image 4 4 [fill_value; fill_value; fill_value; fill_value;
             fill_value; red;        red;        fill_value;
             fill_value; red;        red;        fill_value;
             fill_value; fill_value; fill_value; fill_value].

(** An order of iteration other than that of [elements]. *)
Definition backwards (_ : nat) (X : gset coord) : list coord :=
  reverse (elements X).

(** Entries none of which opens. *)
Definition open_never (name : string) (_ : list string) : string + image :=
  inl ("cannot identify image file " +:+ name)%string.

(** * Part III: lemmas *)

(** ** Pixel access lemmas *)

Lemma locate_in_bounds (img : image) (xy : coord) :
  in_bounds img xy →
  locate img xy = Some (Z.to_nat (xy.2 * width img + xy.1)).
Proof.
  destruct xy as [x y]; unfold in_bounds, locate; simpl; intros [Hx Hy].
  assert (Hx0 : (x <? 0) = false) by (apply Z.ltb_ge; lia).
  assert (Hy0 : (y <? 0) = false) by (apply Z.ltb_ge; lia).
  assert (Hxw : (width img <=? x) = false) by (apply Z.leb_gt; lia).
  assert (Hyh : (height img <=? y) = false) by (apply Z.leb_gt; lia).
  rewrite Hx0, Hy0; simpl. rewrite Hx0, Hy0, Hxw, Hyh. reflexivity.
Qed.

Lemma locate_nonneg (img : image) (x y : Z) (i : nat) :
  0 ≤ x → 0 ≤ y → locate img (x, y) = Some i → in_bounds img (x, y).
Proof.
  unfold in_bounds, locate; simpl; intros Hx Hy.
  assert (Hx0 : (x <? 0) = false) by (apply Z.ltb_ge; lia).
  assert (Hy0 : (y <? 0) = false) by (apply Z.ltb_ge; lia).
  rewrite Hx0, Hy0; simpl. rewrite Hx0, Hy0; simpl.
  destruct (Z.leb_spec (width img) x); simpl; [discriminate|].
  destruct (Z.leb_spec (height img) y); simpl; [discriminate|].
  intros _; lia.
Qed.

Lemma locate_inj (img : image) (c d : coord) :
  in_bounds img c → in_bounds img d → locate img c = locate img d → c = d.
Proof.
  intros Hc Hd. rewrite (locate_in_bounds _ _ Hc), (locate_in_bounds _ _ Hd).
  destruct c as [x y], d as [x' y']; unfold in_bounds in *; simpl in *.
  intros [= Heq]. apply Z2Nat.inj in Heq; [|nia..].
  assert (y = y') by nia. subst y'. f_equal. lia.
Qed.

Lemma getpixel_nonneg (img : image) (x y : Z) (p : pixel) :
  0 ≤ x → 0 ≤ y → getpixel img (x, y) = Some p → in_bounds img (x, y).
Proof.
  intros Hx Hy. unfold getpixel.
  destruct (locate img (x, y)) as [i|] eqn:Hl; [|discriminate].
  intros _. eapply locate_nonneg; eauto.
Qed.

Lemma locate_putpixel (img : image) (d : coord) (v : pixel) (c : coord) :
  locate (putpixel img d v) c = locate img c.
Proof. unfold putpixel. destruct (locate img d); reflexivity. Qed.

Lemma width_putpixel (img : image) (d : coord) (v : pixel) :
  width (putpixel img d v) = width img.
Proof. unfold putpixel. destruct (locate img d); reflexivity. Qed.

Lemma height_putpixel (img : image) (d : coord) (v : pixel) :
  height (putpixel img d v) = height img.
Proof. unfold putpixel. destruct (locate img d); reflexivity. Qed.

Lemma length_putpixel (img : image) (d : coord) (v : pixel) :
  length (data (putpixel img d v)) = length (data img).
Proof.
  unfold putpixel. destruct (locate img d); simpl; [|reflexivity].
  apply length_insert.
Qed.

Lemma in_bounds_putpixel (img : image) (d : coord) (v : pixel) (c : coord) :
  in_bounds (putpixel img d v) c ↔ in_bounds img c.
Proof. unfold in_bounds. rewrite width_putpixel, height_putpixel. tauto. Qed.

Lemma getpixel_putpixel_same (img : image) (d : coord) (v p : pixel) :
  getpixel img d = Some p → getpixel (putpixel img d v) d = Some v.
Proof.
  unfold getpixel. rewrite locate_putpixel. unfold putpixel.
  destruct (locate img d) as [i|]; simpl; [|discriminate].
  intros Hp. apply list_lookup_insert_eq. eapply lookup_lt_Some; eauto.
Qed.

Lemma getpixel_putpixel_other (img : image) (d c : coord) (v : pixel) :
  in_bounds img d → in_bounds img c → c ≠ d →
  getpixel (putpixel img d v) c = getpixel img c.
Proof.
  intros Hd Hc Hne. unfold getpixel. rewrite locate_putpixel. unfold putpixel.
  destruct (locate img d) as [i|] eqn:Hi; [|reflexivity].
  destruct (locate img c) as [j|] eqn:Hj; [|reflexivity]. simpl.
  apply list_lookup_insert_ne. intros ->.
  apply Hne, (locate_inj img); auto. congruence.
Qed.

(** A store writes [v] and nothing else, wherever one looks afterwards. *)
Lemma getpixel_putpixel_cases (img : image) (d c : coord) (v p : pixel) :
  getpixel (putpixel img d v) c = Some p → p = v ∨ getpixel img c = Some p.
Proof.
  unfold getpixel. rewrite locate_putpixel. unfold putpixel.
  destruct (locate img d) as [i|]; [|auto].
  destruct (locate img c) as [j|]; [|discriminate]. simpl.
  destruct (decide (i = j)) as [->|Hne].
  - intros Hp. left.
    destruct (decide (j < length (data img))%nat).
    + rewrite list_lookup_insert_eq in Hp by done. congruence.
    + rewrite list_insert_ge in Hp by lia.
      apply lookup_lt_Some in Hp. lia.
  - rewrite list_lookup_insert_ne by done. auto.
Qed.

Lemma color_diff_refl (p : pixel) : color_diff p p = 0.
Proof. destruct p as [[[r g] b] a]. unfold color_diff. lia. Qed.

Lemma color_diff_nonneg (p q : pixel) : 0 ≤ color_diff p q.
Proof.
  destruct p as [[[r g] b] a], q as [[[r' g'] b'] a']. unfold color_diff. lia.
Qed.

Lemma color_diff_sym (p q : pixel) : color_diff p q = color_diff q p.
Proof.
  destruct p as [[[r g] b] a], q as [[[r' g'] b'] a']. unfold color_diff. lia.
Qed.

Lemma reach_in_bounds img bg t seed c :
  reach img bg t seed c → in_bounds img c.
Proof. induction 1; assumption. Qed.

Lemma reach_close img bg t seed c :
  reach img bg t seed c →
  ∃ p, getpixel img c = Some p ∧ color_diff p bg ≤ t.
Proof. induction 1; eauto. Qed.

Lemma reach_mono img bg t1 t2 seed c :
  t1 ≤ t2 → reach img bg t1 seed c → reach img bg t2 seed c.
Proof.
  intros Ht. induction 1.
  - eapply reach_seed; eauto; lia.
  - eapply reach_step; eauto; lia.
Qed.

Lemma count_close_length bg t l : (count_close bg t l ≤ length l)%nat.
Proof. induction l as [|p l IH]; simpl; [lia|]. case_match; lia. Qed.

Lemma count_close_insert bg t (l : list pixel) (i : nat) (p v : pixel) :
  l !! i = Some p → color_diff p bg ≤ t → t < color_diff v bg →
  (count_close bg t (<[i := v]> l) < count_close bg t l)%nat.
Proof.
  revert i. induction l as [|q l IH]; intros [|i] Hl Hp Hv;
    simpl in *; try discriminate.
  - injection Hl as ->.
    destruct (Z.leb_spec (color_diff v bg) t); [lia|].
    destruct (Z.leb_spec (color_diff p bg) t); lia.
  - specialize (IH i Hl Hp Hv). case_match; lia.
Qed.

Lemma count_close_putpixel bg t img d p v :
  getpixel img d = Some p → color_diff p bg ≤ t → t < color_diff v bg →
  (count_close bg t (data (putpixel img d v)) < count_close bg t (data img))%nat.
Proof.
  unfold getpixel, putpixel.
  destruct (locate img d) as [i|]; simpl; [|discriminate].
  apply count_close_insert.
Qed.

(** ** The fill loop, proved

    The fill colour [value] is further than [thresh] from [bg]: the fill
    has passed its first test. *)
Section FloodFill.
Variables (img0 : image) (seed : coord) (bg value : pixel) (thresh : Z).
Variable order : nat → gset coord → list coord.
Hypothesis Horder : ∀ n X c, c ∈ order n X ↔ c ∈ X.
Hypothesis Hfar : thresh < color_diff value bg.

Local Abbreviation R := (reach img0 bg thresh seed).
Local Abbreviation visit' := (visit bg value thresh).
Local Abbreviation sweep' := (sweep bg value thresh).
Local Abbreviation count := (count_close bg thresh).
Local Abbreviation shut' := (shut bg thresh).
Local Abbreviation base_inv' := (base_inv img0 seed bg value thresh).
Local Abbreviation front' := (front img0 seed bg value thresh).
Local Abbreviation loop_inv' := (loop_inv img0 seed bg value thresh).

Lemma shut_putpixel img d c : shut' img c → shut' (putpixel img d value) c.
Proof.
  intros H p Hp. apply getpixel_putpixel_cases in Hp as [->|Hp]; auto.
Qed.

Lemma shut_putpixel_same img d p :
  getpixel img d = Some p → shut' (putpixel img d value) d.
Proof.
  intros Hp q Hq. rewrite (getpixel_putpixel_same _ _ _ _ Hp) in Hq.
  by injection Hq as <-.
Qed.

Lemma visit_cases st d :
  (visit' st d = st ∧
   (d ∈ fs_full st ∨ d.1 < 0 ∨ d.2 < 0 ∨ getpixel (fs_img st) d = None)) ∨
  (∃ p, in_bounds (fs_img st) d ∧ getpixel (fs_img st) d = Some p ∧
        color_diff p bg ≤ thresh ∧
        visit' st d = FillState (putpixel (fs_img st) d value)
                                ({[ d ]} ∪ fs_full st) ({[ d ]} ∪ fs_new st)) ∨
  (∃ p, getpixel (fs_img st) d = Some p ∧ thresh < color_diff p bg ∧
        visit' st d = FillState (fs_img st) ({[ d ]} ∪ fs_full st) (fs_new st)).
Proof.
  destruct d as [s t]. unfold visit. simpl.
  case_bool_decide as Hfull; simpl; [left; auto|].
  destruct (Z.ltb_spec s 0); simpl; [left; auto|].
  destruct (Z.ltb_spec t 0); simpl; [left; auto|].
  destruct (getpixel (fs_img st) (s, t)) as [p|] eqn:Hp; [|left; auto].
  right. destruct (Z.leb_spec (color_diff p bg) thresh).
  - left. exists p. repeat split; auto; apply (getpixel_nonneg _ _ _ p) in Hp;
      auto; apply Hp.
  - right. exists p. auto.
Qed.

Lemma in_bounds_same img c :
  width img = width img0 → height img = height img0 →
  in_bounds img c ↔ in_bounds img0 c.
Proof. unfold in_bounds. intros -> ->. tauto. Qed.

Lemma visit_base n st c d :
  base_inv' n st → R c → d ∈ neighbours c → base_inv' n (visit' st d).
Proof.
  intros [Hw Hh Hlen Hpix Hseed Hfull Hnew Hcount] Hc Hd.
  destruct (visit_cases st d) as [[-> _]|[(p & Hin & Hp & Hcl & ->)
                                        |(p & Hp & Hcl & ->)]].
  - by constructor.
  - assert (Hin0 : in_bounds img0 d) by (by apply (in_bounds_same (fs_img st))).
    assert (Hp0 : getpixel img0 d = Some p).
    { destruct (Hpix d Hin0) as [<-|[Hv _]]; [done|].
      rewrite Hv in Hp. injection Hp as <-. lia. }
    assert (Hrd : R d) by (eapply reach_step; eauto).
    constructor; simpl.
    + by rewrite width_putpixel.
    + by rewrite height_putpixel.
    + by rewrite length_putpixel.
    + intros e He. destruct (decide (e = d)) as [->|Hne].
      * right. split; [|done]. eapply getpixel_putpixel_same; eauto.
      * rewrite getpixel_putpixel_other; auto.
        by apply (in_bounds_same (fs_img st)).
    + destruct (decide (seed = d)) as [->|Hne].
      * eapply getpixel_putpixel_same; eauto.
      * destruct (getpixel (putpixel (fs_img st) d value) seed) as [q|] eqn:Hq.
        -- apply getpixel_putpixel_cases in Hq as [->|Hq]; [done|].
           congruence.
        -- unfold getpixel in *. rewrite locate_putpixel in Hq.
           unfold putpixel in Hq.
           destruct (locate (fs_img st) d) as [i|]; [|congruence].
           destruct (locate (fs_img st) seed) as [j|]; [|done].
           simpl in *. apply lookup_ge_None in Hq.
           rewrite length_insert in Hq.
           apply lookup_lt_Some in Hseed. lia.
    + intros e [->%elem_of_singleton|He]%elem_of_union.
      * eapply shut_putpixel_same; eauto.
      * apply shut_putpixel; auto.
    + intros e [->%elem_of_singleton|He]%elem_of_union.
      * split; [done|]. eapply shut_putpixel_same; eauto.
      * split; [by apply Hnew|]. apply shut_putpixel. by apply Hnew.
    + pose proof (count_close_putpixel bg thresh _ d p value Hp Hcl Hfar).
      destruct (decide ({[ d ]} ∪ fs_new st = ∅)) as [He|_];
        [exfalso; apply (not_elem_of_empty (C := gset coord) d);
         rewrite <- He; by apply elem_of_union_l, elem_of_singleton|].
      destruct (decide (fs_new st = ∅)); lia.
  - constructor; simpl; auto.
    intros e [->%elem_of_singleton|He]%elem_of_union; [|auto].
    intros q Hq. congruence.
Qed.

Lemma visit_shut st d c :
  shut' (fs_img st) c → shut' (fs_img (visit' st d)) c.
Proof.
  intros Hs.
  destruct (visit_cases st d) as [[-> _]|[(p & Hin & Hp & Hcl & ->)
                                        |(p & Hp & Hcl & ->)]];
    simpl; auto using shut_putpixel.
Qed.

Lemma visit_visited n st d :
  base_inv' n st → in_bounds img0 d → shut' (fs_img (visit' st d)) d.
Proof.
  intros Hb Hd.
  destruct (visit_cases st d) as [[-> Hwhy]|[(p & Hin & Hp & Hcl & ->)
                                        |(p & Hp & Hcl & ->)]]; simpl.
  - destruct Hwhy as [Hf|[Hn|[Hn|Hn]]].
    + by apply (bi_full _ _ _ _ _ _ _ Hb).
    + destruct Hd; lia.
    + destruct Hd; lia.
    + intros q Hq. congruence.
  - eapply shut_putpixel_same; eauto.
  - intros q Hq. congruence.
Qed.

Lemma visit_front n st d rest :
  base_inv' n st → front' st rest → front' (visit' st d) rest.
Proof.
  intros Hb Hfr.
  destruct (visit_cases st d) as [[-> _]|[(p & Hin & Hp & Hcl & ->)
                                        |(p & Hp & Hcl & ->)]]; [done| |].
  - intros c c' q Hnb Hc' Hc Hv Hq Hqc. simpl in *.
    apply getpixel_putpixel_cases in Hq as [->|Hq]; [lia|].
    destruct (decide (c = d)) as [->|Hne];
      [right; by apply elem_of_union_l, elem_of_singleton|].
    rewrite getpixel_putpixel_other in Hv; auto.
    + destruct (Hfr c c' q) as [?|?]; auto. right. by apply elem_of_union_r.
    + apply (in_bounds_same (fs_img st)); [apply Hb..|].
      eapply reach_in_bounds; eauto.
  - intros c c' q Hnb Hc' Hc Hv Hq Hqc. simpl in *. eapply Hfr; eauto.
Qed.

Lemma around_base n st c l :
  base_inv' n st → R c → (∀ d, d ∈ l → d ∈ neighbours c) →
  base_inv' n (foldl visit' st l).
Proof.
  revert st. induction l as [|d l IH]; intros st Hb Hc Hl; simpl; [done|].
  apply IH; auto.
  - eapply visit_base; eauto. apply Hl. left.
  - intros e He. apply Hl. by right.
Qed.

Lemma around_shut st l c :
  shut' (fs_img st) c → shut' (fs_img (foldl visit' st l)) c.
Proof.
  revert st. induction l as [|d l IH]; intros st Hs; simpl; [done|].
  apply IH. by apply visit_shut.
Qed.

Lemma around_front n st c l rest :
  base_inv' n st → R c → (∀ d, d ∈ l → d ∈ neighbours c) →
  front' st rest → front' (foldl visit' st l) rest.
Proof.
  revert st. induction l as [|d l IH]; intros st Hb Hc Hl Hfr; simpl; [done|].
  apply IH; auto.
  - eapply visit_base; eauto. apply Hl. left.
  - intros e He. apply Hl. by right.
  - eapply visit_front; eauto.
Qed.

Lemma around_visited n st c l d :
  base_inv' n st → R c → (∀ e, e ∈ l → e ∈ neighbours c) →
  d ∈ l → in_bounds img0 d → shut' (fs_img (foldl visit' st l)) d.
Proof.
  revert st. induction l as [|e l IH]; intros st Hb Hc Hl Hd Hin; simpl.
  - by apply elem_of_nil in Hd.
  - apply elem_of_cons in Hd as [->|Hd].
    + apply around_shut. eapply visit_visited; eauto.
    + apply IH; auto.
      * eapply visit_base; eauto. apply Hl. left.
      * intros e' He'. apply Hl. by right.
Qed.

(** Once the four neighbours of [c] are visited, [c] is done with. *)
Lemma around_done n st c rest :
  base_inv' n st → R c → front' st (c :: rest) →
  front' (foldl visit' st (neighbours c)) rest.
Proof.
  intros Hb Hc Hfr e e' q Hnb He' He Hv Hq Hqc.
  destruct (around_front n st c (neighbours c) (c :: rest) Hb Hc
              (λ _ H, H) Hfr e e' q) as [Hin|?]; auto.
  apply elem_of_cons in Hin as [->|?]; auto.
  pose proof (around_visited n st c (neighbours c) e' Hb Hc (λ _ H, H)
                Hnb He' q Hq).
  lia.
Qed.

Lemma sweep_inv n rest st :
  base_inv' n st → (∀ c, c ∈ rest → R c) → front' st rest →
  base_inv' n (sweep' st rest) ∧ front' (sweep' st rest) [].
Proof.
  unfold sweep. revert st.
  induction rest as [|c rest IH]; intros st Hb Hr Hfr; simpl; [done|].
  assert (Hc : R c) by (apply Hr; left).
  apply IH.
  - eapply around_base; eauto.
  - intros e He. apply Hr. by right.
  - eapply around_done; eauto.
Qed.

Lemma sweep_shut rest st c :
  shut' (fs_img st) c → shut' (fs_img (sweep' st rest)) c.
Proof.
  unfold sweep. revert st.
  induction rest as [|e rest IH]; intros st Hs; simpl; [done|].
  apply IH. by apply around_shut.
Qed.

Lemma loop_step n img edge full :
  loop_inv' img edge full →
  let st := sweep' (FillState img full ∅) (order n edge) in
  loop_inv' (fs_img st) (fs_new st) edge ∧
  (count (data (fs_img st)) + (if decide (fs_new st = ∅) then 0 else 1)
   ≤ count (data img))%nat.
Proof.
  intros [Hw Hh Hlen Hpix Hseed Hedge Hfull Hfront]. simpl.
  destruct (sweep_inv (count (data img)) (order n edge)
              (FillState img full ∅)) as [Hb Hfr].
  - constructor; simpl; auto.
    + intros c Hc. by apply not_elem_of_empty in Hc.
    + destruct (decide ((∅ : gset coord) = ∅)); [lia|done].
  - intros c Hc%Horder. by apply Hedge.
  - intros c c' p Hnb Hc' Hc Hv Hp Hcl. left.
    apply Horder. eapply Hfront; eauto.
  - split; [|apply Hb].
    constructor; [apply Hb..| | |].
    + apply (bi_new _ _ _ _ _ _ _ Hb).
    + intros c Hc. apply sweep_shut. by apply Hedge.
    + intros c c' p Hnb Hc' Hc Hv Hp Hcl.
      destruct (Hfr c c' p) as [Hin|?]; auto.
      by apply elem_of_nil in Hin.
Qed.

(** The loop ends within the bound. *)
Lemma flood_loop_inv fuel : ∀ img edge full,
  loop_inv' img edge full →
  (count (data img) + (if decide (edge = ∅) then 0 else 1) < fuel)%nat →
  ∃ img' full',
    flood_loop order fuel bg value thresh img edge full = Some img' ∧
                loop_inv' img' ∅ full'.
Proof.
  induction fuel as [|fuel IH]; intros img edge full Hinv Hfuel; [lia|].
  simpl. destruct (decide (edge = ∅)) as [->|Hne]; [eauto|].
  destruct (loop_step fuel _ _ _ Hinv) as [Hinv' Hcount]. simpl in *.
  apply IH; [done|]. lia.
Qed.

Lemma loop_inv_reached img full c :
  loop_inv' img ∅ full → R c → getpixel img c = Some value.
Proof.
  intros Hinv.
  induction 1 as [p Hin Hp Hcl|c c' p Hrc IH Hnb Hin Hp Hcl].
  - apply Hinv.
  - destruct (li_pix _ _ _ _ _ _ _ _ Hinv c' Hin) as [Heq|[? _]]; [|done].
    rewrite Hp in Heq.
    exfalso. eapply (not_elem_of_empty (C := gset coord)).
    eapply (li_front _ _ _ _ _ _ _ _ Hinv c c' p); eauto.
Qed.

Lemma loop_inv_final img full c :
  loop_inv' img ∅ full → in_bounds img0 c →
  (R c ∧ getpixel img c = Some value) ∨
  (¬ R c ∧ getpixel img c = getpixel img0 c).
Proof.
  intros Hinv Hc.
  destruct (li_pix _ _ _ _ _ _ _ _ Hinv c Hc) as [Heq|[? ?]]; [right|by left].
  split; [|done]. intros Hr.
  pose proof (loop_inv_reached _ _ _ Hinv Hr) as Hv.
  apply reach_close in Hr as (q & Hq & Hqc).
  rewrite Hv, Hq in Heq. injection Heq as <-. lia.
Qed.

Hypothesis Hseed_in : in_bounds img0 seed.
Hypothesis Hseed_bg : getpixel img0 seed = Some bg.
Hypothesis Hthresh : 0 ≤ thresh.

Lemma loop_inv_start : loop_inv' (putpixel img0 seed value) {[ seed ]} ∅.
Proof.
  assert (Hrs : R seed).
  { eapply reach_seed; eauto. rewrite color_diff_refl. done. }
  constructor.
  - apply width_putpixel.
  - apply height_putpixel.
  - apply length_putpixel.
  - intros c Hc. destruct (decide (c = seed)) as [->|Hne].
    + right. split; [|done]. eapply getpixel_putpixel_same; eauto.
    + left. by apply getpixel_putpixel_other.
  - eapply getpixel_putpixel_same; eauto.
  - intros c ->%elem_of_singleton. split; [done|].
    eapply shut_putpixel_same; eauto.
  - intros c Hc. by apply not_elem_of_empty in Hc.
  - intros c c' p Hnb Hc' Hc Hv Hp Hcl. apply elem_of_singleton.
    destruct (decide (c = seed)) as [|Hne]; [done|]. exfalso.
    rewrite getpixel_putpixel_other in Hv; eauto using reach_in_bounds.
    apply reach_close in Hc as (q & Hq & Hqc). rewrite Hv in Hq.
    injection Hq as <-. lia.
Qed.

(** The fill proper: it ends, and it has stored [value] to the pixels
    joined to the seed and to no other. *)
Lemma flood_loop_fills :
  ∃ img', flood_loop order (2 + length (data img0)) bg value thresh
                     (putpixel img0 seed value) {[ seed ]} ∅ = Some img' ∧
          width img' = width img0 ∧ height img' = height img0 ∧
          length (data img') = length (data img0) ∧
          ∀ c, in_bounds img0 c →
            (R c ∧ getpixel img' c = Some value) ∨
            (¬ R c ∧ getpixel img' c = getpixel img0 c).
Proof.
  destruct (flood_loop_inv (2 + length (data img0)) _ _ _ loop_inv_start)
    as (img' & full' & Hrun & Hinv).
  - pose proof (count_close_length bg thresh
                  (data (putpixel img0 seed value))) as Hle.
    rewrite length_putpixel in Hle. case_decide; lia.
  - exists img'. split; [done|].
    split; [apply Hinv|]. split; [apply Hinv|]. split; [apply Hinv|].
    intros c Hc. eapply loop_inv_final; eauto.
Qed.

End FloodFill.

(** ** [floodfill]: what it does to an image *)

Lemma floodfill_skip img seed value t bg :
  getpixel img seed = Some bg → color_diff value bg ≤ t →
  floodfill img seed value t = Some img.
Proof.
  intros Hbg Hnear. unfold floodfill, floodfill_in. rewrite Hbg.
  destruct (Z.leb_spec (color_diff value bg) t); [done|lia].
Qed.

Lemma floodfill_outside img seed value t :
  getpixel img seed = None → floodfill img seed value t = Some img.
Proof. intros Hbg. unfold floodfill, floodfill_in. by rewrite Hbg. Qed.

Lemma floodfill_in_fills order img seed value t bg :
  (∀ n X c, c ∈ order n X ↔ c ∈ X) →
  in_bounds img seed → getpixel img seed = Some bg →
  0 ≤ t → t < color_diff value bg →
  ∃ img', floodfill_in order img seed value t = Some img' ∧
          width img' = width img ∧ height img' = height img ∧
          length (data img') = length (data img) ∧
          ∀ c, in_bounds img c →
            (reach img bg t seed c ∧ getpixel img' c = Some value) ∨
            (¬ reach img bg t seed c ∧ getpixel img' c = getpixel img c).
Proof.
  intros Horder Hin Hbg Ht Hfar. unfold floodfill_in. rewrite Hbg.
  destruct (Z.leb_spec (color_diff value bg) t); [lia|].
  by apply flood_loop_fills.
Qed.

Lemma floodfill_fills img seed value t bg :
  in_bounds img seed → getpixel img seed = Some bg →
  0 ≤ t → t < color_diff value bg →
  ∃ img', floodfill img seed value t = Some img' ∧
          width img' = width img ∧ height img' = height img ∧
          length (data img') = length (data img) ∧
          ∀ c, in_bounds img c →
            (reach img bg t seed c ∧ getpixel img' c = Some value) ∨
            (¬ reach img bg t seed c ∧ getpixel img' c = getpixel img c).
Proof.
  apply floodfill_in_fills. intros n X c. apply elem_of_elements.
Qed.

(** ** The four fills, one after the other *)

Lemma locate_same_dims img img' c :
  width img' = width img → height img' = height img →
  locate img' c = locate img c.
Proof. destruct c. unfold locate. by intros -> ->. Qed.

Lemma in_bounds_same_dims img img' c :
  width img' = width img → height img' = height img →
  in_bounds img' c ↔ in_bounds img c.
Proof. unfold in_bounds. intros -> ->. tauto. Qed.

Lemma locate_corner img x y i :
  x = 0 ∨ x = width img - 1 → y = 0 ∨ y = height img - 1 →
  locate img (x, y) = Some i → in_bounds img (x, y).
Proof.
  intros Hx Hy. unfold locate, in_bounds. simpl.
  destruct (Z.ltb_spec x 0), (Z.ltb_spec y 0);
    repeat match goal with
           | |- context [?a <? ?b] => destruct (Z.ltb_spec a b)
           | |- context [?a <=? ?b] => destruct (Z.leb_spec a b)
           end; simpl; try discriminate; lia.
Qed.

Lemma seed_points_proper img s : s ∈ seed_points img → proper_seed img s.
Proof.
  unfold seed_points. intros Hs i.
  repeat (apply elem_of_cons in Hs as [->|Hs]);
    [apply locate_corner; auto..|by apply elem_of_nil in Hs].
Qed.

Lemma proper_seed_getpixel img s p :
  proper_seed img s → getpixel img s = Some p → in_bounds img s.
Proof.
  unfold getpixel. intros Hs Hp.
  destruct (locate img s) as [i|] eqn:Hi; [|discriminate]. eauto.
Qed.

Lemma region_connected img t s c : region img t s c → connected img t s c.
Proof. intros (bg & ? & ? & ?). exists bg. auto. Qed.

(** Stores of a colour that is not close to [bg] cannot open new ways. *)
Lemma reach_transfer img0 img value bg t s c :
  width img = width img0 → height img = height img0 →
  (∀ c, in_bounds img0 c →
        getpixel img c = getpixel img0 c ∨ getpixel img c = Some value) →
  t < color_diff value bg →
  reach img bg t s c → reach img0 bg t s c.
Proof.
  intros Hw Hh Hpix Hfar.
  assert (Hold : ∀ c p, in_bounds img c → getpixel img c = Some p →
                        color_diff p bg ≤ t →
                        in_bounds img0 c ∧ getpixel img0 c = Some p).
  { intros e p He Hp Hcl. apply (in_bounds_same_dims img0) in He; auto.
    split; [done|]. destruct (Hpix e He) as [<-|Hv]; [done|].
    rewrite Hv in Hp. injection Hp as <-. lia. }
  induction 1 as [p Hin Hp Hcl|c c' p Hrc IH Hnb Hin Hp Hcl].
  - destruct (Hold _ _ Hin Hp Hcl). eapply reach_seed; eauto.
  - destruct (Hold _ _ Hin Hp Hcl). eapply reach_step; eauto.
Qed.

Lemma fills_inv_refl img t corners : fills_inv img img t corners.
Proof. constructor; auto. Qed.

Lemma floodfill_frame img0 img t corners s :
  0 ≤ t → fills_inv img0 img t corners → s ∈ corners → proper_seed img0 s →
  ∃ img', floodfill img s fill_value t = Some img' ∧
          fills_inv img0 img' t corners.
Proof.
  intros Ht [Hw Hh Hlen Hpix] Hs Hprop.
  destruct (getpixel img s) as [bg|] eqn:Hbg;
    [|exists img; split; [by apply floodfill_outside|by constructor]].
  destruct (Z.le_gt_cases (color_diff fill_value bg) t) as [Hnear|Hfar];
    [exists img; split; [by eapply floodfill_skip|by constructor]|].
  assert (Hin : in_bounds img s).
  { apply (proper_seed_getpixel _ _ bg); [|done].
    intros i. rewrite (locate_same_dims img0 img) by done.
    intros Hi. apply (in_bounds_same_dims img0); eauto. }
  destruct (floodfill_fills img s fill_value t bg Hin Hbg Ht Hfar)
    as (img' & Hrun & Hw' & Hh' & Hlen' & Hfill).
  exists img'. split; [done|]. constructor; [congruence..|].
  intros c Hc.
  assert (Hc' : in_bounds img c) by (by apply (in_bounds_same_dims img0)).
  destruct (Hfill c Hc') as [[Hr Hv]|[_ Heq]]; [|rewrite Heq; auto].
  right. split; [done|]. exists s. split; [done|]. exists bg.
  assert (Hbg0 : getpixel img0 s = Some bg).
  { apply (in_bounds_same_dims img0) in Hin; auto.
    destruct (Hpix s Hin) as [<-|[Hv' _]]; [done|].
    rewrite Hv' in Hbg. injection Hbg as <-.
    rewrite color_diff_refl in Hfar. lia. }
  split; [done|]. split; [done|].
  eapply (reach_transfer img0 img fill_value); eauto.
  intros e He. destruct (Hpix e He) as [?|[? _]]; auto.
Qed.

Lemma fill_from_frame seeds : ∀ img0 img t corners,
  0 ≤ t → fills_inv img0 img t corners →
  (∀ s, s ∈ seeds → s ∈ corners ∧ proper_seed img0 s) →
  ∃ img', fill_from seeds img t = Some img' ∧ fills_inv img0 img' t corners.
Proof.
  induction seeds as [|s seeds IH]; intros img0 img t corners Ht Hinv Hseeds;
    simpl; [eauto|].
  destruct (Hseeds s) as [Hs Hprop]; [left|].
  destruct (floodfill_frame img0 img t corners s Ht Hinv Hs Hprop)
    as (img1 & -> & Hinv1). simpl.
  apply IH; auto. intros s' Hs'. apply Hseeds. by right.
Qed.

Lemma fill_corners_frame img t :
  0 ≤ t →
  ∃ img', fill_corners img t = Some img' ∧
          fills_inv img img' t (seed_points img).
Proof.
  intros Ht. apply fill_from_frame; auto using fills_inv_refl.
  intros s Hs. split; [done|]. by apply seed_points_proper.
Qed.

(** ** The replacement pass *)

Lemma getpixel_replace_chroma img c :
  getpixel (replace_chroma img) c = replace_item <$> getpixel img c.
Proof.
  unfold getpixel, replace_chroma, putdata.
  rewrite (locate_same_dims img) by done.
  destruct (locate img c) as [i|]; simpl; [|done].
  apply list_lookup_fmap.
Qed.

Lemma replace_item_not_chroma p : is_chroma (replace_item p) = false.
Proof. unfold replace_item. destruct (is_chroma p) eqn:Hp; done. Qed.

Lemma replace_item_fill_value : replace_item fill_value = transparent.
Proof. reflexivity. Qed.

Lemma replace_item_idem p : replace_item (replace_item p) = replace_item p.
Proof.
  unfold replace_item at 1. by rewrite replace_item_not_chroma.
Qed.

(** ** The transform as a whole *)

Lemma apply_matte_runs img t :
  0 ≤ t →
  ∃ img', fill_corners img t = Some img' ∧
          apply_matte img t = Some (replace_chroma img') ∧
          fills_inv img img' t (seed_points img).
Proof.
  intros Ht. destruct (fill_corners_frame img t Ht) as (img' & Hrun & Hinv).
  exists img'. unfold apply_matte. rewrite Hrun. auto.
Qed.

(** A pixel no running fill reaches comes out as the second pass makes it. *)
Lemma apply_matte_frame img t :
  0 ≤ t →
  ∃ out, apply_matte img t = Some out ∧
    ∀ c q, in_bounds img c → getpixel img c = Some q →
      (∀ s, s ∈ seed_points img → ¬ region img t s c) →
      getpixel out c = Some (replace_item q).
Proof.
  intros Ht. destruct (apply_matte_runs img t Ht) as (img' & _ & Hrun & Hinv).
  exists (replace_chroma img'). split; [done|].
  intros c q Hc Hq Hno. rewrite getpixel_replace_chroma.
  destruct (fi_pix _ _ _ _ Hinv c Hc) as [->|[_ (s & Hs & Hr)]].
  - by rewrite Hq.
  - by destruct (Hno s Hs).
Qed.

(** ** Images whose corners have one colour

    With one seed colour [bg], being joined is an equivalence, and the four
    fills together store to the union of the corners' components. *)

Lemma neighbours_sym c c' : c' ∈ neighbours c → c ∈ neighbours c'.
Proof.
  destruct c as [x y], c' as [x' y']. unfold neighbours.
  rewrite !elem_of_cons, !elem_of_nil.
  intros [[= -> ->]|[[= -> ->]|[[= -> ->]|[[= -> ->]|[]]]]];
    [right; left|left|do 3 right; left|do 2 right; left]; f_equal; lia.
Qed.

Lemma reach_trans img bg t s c d :
  reach img bg t s c → reach img bg t c d → reach img bg t s d.
Proof.
  intros Hsc. induction 1; [done|]. eapply reach_step; eauto.
Qed.

Lemma reach_sym img bg t s c :
  reach img bg t s c → reach img bg t c s.
Proof.
  induction 1 as [p Hin Hp Hcl|c c' p Hrc IH Hnb Hin Hp Hcl].
  - eapply reach_seed; eauto.
  - apply (reach_trans _ _ _ _ c); [|done].
    destruct (reach_close _ _ _ _ _ Hrc) as (q & Hq & Hqc).
    eapply (reach_step _ _ _ _ c'); eauto using reach_in_bounds.
    + eapply reach_seed; eauto.
    + by apply neighbours_sym.
Qed.

Lemma reach_seed_inv img bg t s c :
  reach img bg t s c →
  in_bounds img s ∧ ∃ p, getpixel img s = Some p ∧ color_diff p bg ≤ t.
Proof. induction 1; eauto. Qed.

(** A chain in [img0] survives in [img] if none of its pixels was stored
    to. *)
Lemma reach_back img0 img bg t s c :
  width img = width img0 → height img = height img0 →
  (∀ e, reach img0 bg t s e → getpixel img e = getpixel img0 e) →
  reach img0 bg t s c → reach img bg t s c.
Proof.
  intros Hw Hh Hsame Hr.
  induction Hr as [p Hin Hp Hcl|c c' p Hrc IH Hnb Hin Hp Hcl].
  - eapply reach_seed; eauto.
    + by apply (in_bounds_same_dims img0).
    + rewrite Hsame; [done|]. eapply reach_seed; eauto.
  - eapply reach_step; eauto.
    + by apply (in_bounds_same_dims img0).
    + rewrite Hsame; [done|]. eapply reach_step; eauto.
Qed.

Lemma same_inv_weak img0 img bg t seeded c :
  same_inv img0 img bg t seeded → in_bounds img0 c →
  getpixel img c = getpixel img0 c ∨ getpixel img c = Some fill_value.
Proof. intros Hinv Hc. destruct (si_pix _ _ _ _ _ Hinv c Hc) as [[? _]|[? _]]; auto. Qed.

Lemma floodfill_same img0 img bg t (seeded : coord → Prop) s :
  0 ≤ t → t < color_diff fill_value bg →
  same_inv img0 img bg t seeded → proper_seed img0 s →
  (∀ p, getpixel img0 s = Some p → p = bg) →
  ∃ img', floodfill img s fill_value t = Some img' ∧
          same_inv img0 img' bg t (λ x, x = s ∨ seeded x).
Proof.
  intros Ht Hfar Hinv Hprop Hbg.
  pose proof Hinv as [Hw Hh Hlen Hpix].
  destruct (getpixel img s) as [q|] eqn:Hq.
  - assert (Hin : in_bounds img0 s).
    { apply (in_bounds_same_dims img0 img); auto.
      eapply proper_seed_getpixel; eauto.
      intros i. rewrite (locate_same_dims img0 img) by done.
      intros Hi. apply (in_bounds_same_dims img0 img); eauto. }
    destruct (Hpix s Hin) as [[Hv (s' & Hs' & Hrs)]|[Heqs Hnos]].
    + (* the seed was stored to by an earlier fill *)
      exists img. split.
      { apply (floodfill_skip _ _ _ _ fill_value); [done|].
        by rewrite color_diff_refl. }
      constructor; auto. intros c Hc.
      destruct (Hpix c Hc) as [[Hvc (s0 & Hs0 & Hr0)]|[Heqc Hnoc]];
        [left; eauto|right].
      split; [done|]. intros (s0 & [->|Hs0] & Hr0); apply Hnoc; eauto.
      exists s'. split; [done|]. eapply reach_trans; eauto.
    + (* the seed still has its colour: the fill runs *)
      assert (q = bg) as -> by (apply Hbg; congruence).
      assert (Hin' : in_bounds img s)
        by (by apply (in_bounds_same_dims img0 img)).
      destruct (floodfill_fills img s fill_value t bg Hin' Hq Ht Hfar)
        as (img' & Hrun & Hw' & Hh' & Hlen' & Hfill).
      exists img'. split; [done|]. constructor; [congruence..|].
      intros c Hc.
      assert (Hc' : in_bounds img c)
        by (by apply (in_bounds_same_dims img0 img)).
      destruct (Hfill c Hc') as [[Hr Hv]|[Hnr Heq']].
      * left. split; [done|]. exists s. split; [by left|].
        eapply (reach_transfer img0 img fill_value); eauto.
        intros e He. eapply same_inv_weak; eauto.
      * rewrite Heq'.
        destruct (Hpix c Hc) as [[Hvc (s0 & Hs0 & Hr0)]|[Heqc Hnoc]];
          [left; eauto|right].
        split; [done|]. intros (s0 & [->|Hs0] & Hr0); [|apply Hnoc; eauto].
        apply Hnr. apply (reach_back img0); auto.
        intros e He.
        destruct (Hpix e (reach_in_bounds _ _ _ _ _ He))
          as [[_ (s1 & Hs1 & Hr1)]|[Heqe _]]; [|done].
        exfalso. apply Hnos. exists s1. split; [done|].
        eapply reach_trans; eauto using reach_sym.
  - exists img. split; [by apply floodfill_outside|].
    constructor; auto. intros c Hc.
    destruct (Hpix c Hc) as [[Hvc (s0 & Hs0 & Hr0)]|[Heqc Hnoc]];
      [left; eauto|right].
    split; [done|]. intros (s0 & [->|Hs0] & Hr0); [|apply Hnoc; eauto].
    apply reach_seed_inv in Hr0 as (Hin & p & Hp & _).
    destruct (Hpix s Hin) as [[Hv _]|[Heqs _]]; congruence.
Qed.

Lemma fill_from_same seeds : ∀ img0 img bg t (seeded : coord → Prop),
  0 ≤ t → t < color_diff fill_value bg →
  same_inv img0 img bg t seeded →
  (∀ s, s ∈ seeds → proper_seed img0 s ∧
                    ∀ p, getpixel img0 s = Some p → p = bg) →
  ∃ img', fill_from seeds img t = Some img' ∧
          same_inv img0 img' bg t (λ x, x ∈ seeds ∨ seeded x).
Proof.
  induction seeds as [|s seeds IH];
    intros img0 img bg t seeded Ht Hfar Hinv Hseeds; simpl.
  - exists img. split; [done|]. destruct Hinv as [? ? ? Hpix].
    constructor; auto. intros c Hc.
    destruct (Hpix c Hc) as [[Hvc (s0 & Hs0 & Hr0)]|[Heqc Hnoc]];
      [left; eauto|right].
    split; [done|]. intros (s0 & [Hs0%elem_of_nil|Hs0] & Hr0); [done|].
    apply Hnoc; eauto.
  - destruct (Hseeds s) as [Hprop Hbg]; [left|].
    destruct (floodfill_same img0 img bg t seeded s Ht Hfar Hinv Hprop Hbg)
      as (img1 & -> & Hinv1). simpl.
    destruct (IH img0 img1 bg t _ Ht Hfar Hinv1) as (img' & Hrun & Hinv').
    { intros s' Hs'. apply Hseeds. by right. }
    exists img'. split; [done|]. destruct Hinv' as [? ? ? Hpix].
    constructor; auto. intros c Hc.
    destruct (Hpix c Hc) as [[Hvc (s0 & Hs0 & Hr0)]|[Heqc Hnoc]].
    + left. split; [done|]. exists s0. split; [|done].
      destruct Hs0 as [?|[->|?]]; [left; by right|left; left|by right].
    + right. split; [done|]. intros (s0 & Hs0 & Hr0). apply Hnoc.
      exists s0. split; [|done].
      destruct Hs0 as [[->|?]%elem_of_cons|?]; auto.
Qed.

Lemma fill_corners_same img bg t :
  0 ≤ t → t < color_diff fill_value bg →
  (∀ s p, s ∈ seed_points img → getpixel img s = Some p → p = bg) →
  ∃ img', fill_corners img t = Some img' ∧
    ∀ c, in_bounds img c →
      (getpixel img' c = Some fill_value ∧ corner_joined img bg t c) ∨
      (getpixel img' c = getpixel img c ∧ ¬ corner_joined img bg t c).
Proof.
  intros Ht Hfar Hbg.
  destruct (fill_from_same (seed_points img) img img bg t (λ _, False)
              Ht Hfar) as (img' & Hrun & Hinv).
  - constructor; auto. intros c Hc. right. split; [done|].
    by intros (s & [] & _).
  - intros s Hs. split; [by apply seed_points_proper|]. intros p. by apply Hbg.
  - exists img'. split; [done|]. intros c Hc.
    destruct (si_pix _ _ _ _ _ Hinv c Hc)
      as [[Hvc (s0 & Hs0 & Hr0)]|[Heqc Hnoc]].
    + left. split; [done|]. exists s0. split; [|done]. by destruct Hs0.
    + right. split; [done|]. intros (s0 & Hs0 & Hr0). apply Hnoc.
      exists s0. auto.
Qed.

(** ** Running the transform on its own output *)

Lemma color_diff_zero p q : color_diff p q ≤ 0 → p = q.
Proof.
  destruct p as [[[r g] b] a], q as [[[r' g'] b'] a']. unfold color_diff.
  intros H. repeat f_equal; lia.
Qed.

Lemma image_eq a b :
  width a = width b → height a = height b → data a = data b → a = b.
Proof. destruct a, b. simpl. congruence. Qed.

(** Every index of the pixel sequence is the place of a coordinate. *)
Lemma index_coord img i :
  wf_image img → (i < length (data img))%nat →
  ∃ c, in_bounds img c ∧ locate img c = Some i.
Proof.
  intros (Hw & Hh & Hlen) Hi. rewrite Hlen in Hi.
  assert (Hpos : 0 < width img * height img) by lia.
  assert (Hw' : 0 < width img) by nia.
  exists (Z.of_nat i mod width img, Z.of_nat i / width img).
  assert (Hin : in_bounds img
                  (Z.of_nat i mod width img, Z.of_nat i / width img)).
  { split; simpl.
    - apply Z.mod_pos_bound. lia.
    - split; [apply Z.div_pos; lia|].
      apply Z.div_lt_upper_bound; lia. }
  split; [done|]. rewrite (locate_in_bounds _ _ Hin). simpl. f_equal.
  rewrite (Z.mul_comm _ (width img)), <- Z.div_mod by lia. lia.
Qed.

Lemma fills_inv_wf img0 img t corners :
  fills_inv img0 img t corners → wf_image img0 → wf_image img.
Proof.
  intros [Hw Hh Hlen _]. unfold wf_image. rewrite Hw, Hh, Hlen. done.
Qed.

Lemma replace_chroma_wf img : wf_image img → wf_image (replace_chroma img).
Proof. unfold wf_image. simpl. by rewrite length_fmap. Qed.

Lemma replace_chroma_clean img p :
  p ∈ data (replace_chroma img) → is_chroma p = false.
Proof.
  simpl. intros (q & -> & _)%list_elem_of_fmap. apply replace_item_not_chroma.
Qed.

Lemma apply_matte_settled out t :
  wf_image out → 0 ≤ t →
  (∀ p, p ∈ data out → is_chroma p = false) → settled out t →
  apply_matte out t = Some out.
Proof.
  intros Hwf Ht Hclean Hset.
  destruct (apply_matte_runs out t Ht) as (img' & _ & -> & Hinv).
  f_equal. apply image_eq; simpl; [apply Hinv..|].
  apply list_eq. intros i. rewrite list_lookup_fmap.
  destruct (decide (i < length (data out))%nat) as [Hi|Hi].
  - destruct (index_coord out i Hwf Hi) as (c & Hc & Hloc).
    assert (Hout : getpixel out c = data out !! i)
      by (unfold getpixel; by rewrite Hloc).
    assert (Himg : getpixel img' c = data img' !! i).
    { unfold getpixel. rewrite (locate_same_dims out img'), Hloc; [done|..];
        apply Hinv. }
    rewrite <- Himg, <- Hout.
    destruct (fi_pix _ _ _ _ Hinv c Hc) as [->|[-> (s & Hs & Hr)]].
    + destruct (getpixel out c) as [p|] eqn:Hp; [simpl|done].
      unfold replace_item. rewrite Hclean; [done|].
      rewrite Hout in Hp. eapply list_elem_of_lookup_2; eauto.
    + destruct Hr as (bg & Hbg & Hfar & Hr).
      destruct (reach_close _ _ _ _ _ Hr) as (p & Hp & Hcl).
      rewrite Hp. simpl. f_equal. symmetry. eapply Hset; eauto.
  - rewrite !(proj2 (lookup_ge_None _ _)); [done|lia|].
    rewrite (fi_length _ _ _ _ Hinv). lia.
Qed.

(** After its fill a seed pixel is within [t] of the fill colour, and
    later fills leave it so. *)
Lemma fill_from_seeds_near seeds : ∀ img img' t s q,
  0 ≤ t → (∀ s, s ∈ seeds → proper_seed img s) →
  fill_from seeds img t = Some img' →
  (s ∈ seeds ∨ ∀ q, getpixel img s = Some q → color_diff fill_value q ≤ t) →
  in_bounds img s →
  getpixel img' s = Some q → color_diff fill_value q ≤ t.
Proof.
  induction seeds as [|s0 seeds IH]; intros img img' t s q Ht Hprop Hrun Hs Hin
    Hq; simpl in Hrun.
  - injection Hrun as <-. destruct Hs as [Hs|Hs]; [|by apply Hs].
    by apply elem_of_nil in Hs.
  - destruct (floodfill_frame img img t [s0] s0 Ht (fills_inv_refl _ _ _))
      as (img1 & Hfill & Hinv1); [left|apply Hprop; left|].
    rewrite Hfill in Hrun. simpl in Hrun.
    apply (IH img1 img' t s q); auto.
    + intros s' Hs' i. rewrite (locate_same_dims img img1) by apply Hinv1.
      intros Hi. apply (in_bounds_same_dims img img1); [apply Hinv1..|].
      eapply Hprop; eauto. by right.
    + assert (Hkeep : (∀ q, getpixel img s = Some q →
                            color_diff fill_value q ≤ t) →
                      ∀ q, getpixel img1 s = Some q →
                           color_diff fill_value q ≤ t).
      { intros Hnear q1 Hq1.
        destruct (fi_pix _ _ _ _ Hinv1 s Hin) as [Heq|[Hv _]].
        - apply Hnear. congruence.
        - rewrite Hv in Hq1. injection Hq1 as <-.
          by rewrite color_diff_refl. }
      destruct Hs as [[->|Hs]%elem_of_cons|Hs]; [|by left|by right; auto].
      right. destruct (getpixel img s0) as [bg|] eqn:Hbg.
      * destruct (Z.le_gt_cases (color_diff fill_value bg) t) as [Hnear|Hfar].
        -- apply Hkeep. intros q0 [= <-]. done.
        -- destruct (floodfill_fills img s0 fill_value t bg Hin Hbg Ht Hfar)
             as (img1' & Hfill' & _ & _ & _ & Hpix).
           rewrite Hfill in Hfill'. injection Hfill' as <-.
           intros q1 Hq1. destruct (Hpix s0 Hin) as [[_ Hv]|[Hn _]].
           ++ rewrite Hv in Hq1. injection Hq1 as <-.
              by rewrite color_diff_refl.
           ++ destruct Hn. eapply reach_seed; eauto.
              by rewrite color_diff_refl.
      * apply Hkeep. intros q0 Hq0. congruence.
    + by apply (in_bounds_same_dims img img1); [apply Hinv1..|].
Qed.

Lemma replace_chroma_settled_0 img img' :
  fill_corners img 0 = Some img' → settled (replace_chroma img') 0.
Proof.
  intros Hrun s bg c p Hs Hbg _ Hp Hcl.
  apply color_diff_zero in Hcl as ->.
  rewrite getpixel_replace_chroma in Hbg.
  destruct (getpixel img' s) as [q|] eqn:Hq; [|done].
  simpl in Hbg. injection Hbg as <-.
  destruct (fill_corners_frame img 0) as (img'' & Hrun' & Hinv); [done|].
  rewrite Hrun in Hrun'. injection Hrun' as <-.
  assert (Hs' : s ∈ seed_points img).
  { unfold seed_points in *. simpl in Hs.
    by rewrite <- (fi_width _ _ _ _ Hinv), <- (fi_height _ _ _ _ Hinv). }
  assert (Hin : in_bounds img s).
  { apply (in_bounds_same_dims img img'); [apply Hinv..|].
    apply (proper_seed_getpixel _ _ q); [|done].
    intros i. rewrite (locate_same_dims img img') by apply Hinv.
    intros Hi. apply (in_bounds_same_dims img img'); [apply Hinv..|].
    eapply seed_points_proper; eauto. }
  assert (q = fill_value) as ->.
  { symmetry. apply color_diff_zero.
    apply (fill_from_seeds_near (seed_points img) img img' 0 s q); auto.
    - done.
    - intros s0. apply seed_points_proper. }
  reflexivity.
Qed.

(** ** Termination for every threshold

    Below zero no pixel is within the threshold, so a fill stores to its
    seed and stops after one sweep. *)

Lemma visit_negative bg value t st d :
  t < 0 →
  fs_img (visit bg value t st d) = fs_img st ∧
  fs_new (visit bg value t st d) = fs_new st.
Proof.
  intros Ht. destruct d as [x y]. unfold visit.
  destruct (bool_decide ((x, y) ∈ fs_full st) || (x <? 0) || (y <? 0));
    [done|].
  destruct (getpixel (fs_img st) (x, y)) as [p|]; [|done].
  pose proof (color_diff_nonneg p bg).
  destruct (Z.leb_spec (color_diff p bg) t); [lia|done].
Qed.

Lemma sweep_negative bg value t edge : ∀ st,
  t < 0 →
  fs_img (sweep bg value t st edge) = fs_img st ∧
  fs_new (sweep bg value t st edge) = fs_new st.
Proof.
  assert (Hround : ∀ l st, t < 0 →
            fs_img (foldl (visit bg value t) st l) = fs_img st ∧
            fs_new (foldl (visit bg value t) st l) = fs_new st).
  { induction l as [|d l IH]; intros st Ht; simpl; [done|].
    destruct (IH (visit bg value t st d) Ht) as [-> ->].
    by apply visit_negative. }
  unfold sweep. induction edge as [|c edge IH]; intros st Ht; simpl; [done|].
  destruct (IH (foldl (visit bg value t) st (neighbours c)) Ht) as [-> ->].
  by apply Hround.
Qed.

Lemma floodfill_negative img s value t :
  t < 0 →
  ∃ img', floodfill img s value t = Some img' ∧
          width img' = width img ∧ height img' = height img ∧
          length (data img') = length (data img).
Proof.
  intros Ht. unfold floodfill, floodfill_in.
  destruct (getpixel img s) as [bg|]; [|eauto].
  destruct (color_diff value bg <=? t); [eauto|].
  exists (putpixel img s value).
  split; [|auto using width_putpixel, height_putpixel, length_putpixel].
  change (2 + length (data img))%nat with (S (S (length (data img)))).
  cbn [flood_loop].
  destruct (decide (({[ s ]} : gset coord) = ∅)) as [He|_].
  { exfalso. apply (not_elem_of_empty (C := gset coord) s).
    rewrite <- He. by apply elem_of_singleton. }
  destruct (sweep_negative bg value t (elements ({[ s ]} : gset coord))
              (FillState (putpixel img s value) ∅ ∅) Ht) as [-> ->].
  simpl. by destruct (decide ((∅ : gset coord) = ∅)).
Qed.

Lemma fill_from_total seeds : ∀ img t,
  (∀ s, s ∈ seeds → proper_seed img s) →
  ∃ img', fill_from seeds img t = Some img' ∧
          width img' = width img ∧ height img' = height img ∧
          length (data img') = length (data img).
Proof.
  induction seeds as [|s seeds IH]; intros img t Hprop; simpl; [eauto|].
  assert (∃ img1, floodfill img s fill_value t = Some img1 ∧
                  width img1 = width img ∧ height img1 = height img ∧
                  length (data img1) = length (data img))
    as (img1 & -> & Hw & Hh & Hlen).
  { destruct (Z.lt_ge_cases t 0) as [Ht|Ht]; [by apply floodfill_negative|].
    destruct (floodfill_frame img img t [s] s Ht (fills_inv_refl _ _ _))
      as (img1 & Hrun & Hinv); [left|apply Hprop; left|].
    exists img1. split; [done|]. split; [|split]; apply Hinv. }
  simpl. destruct (IH img1 t) as (img' & Hrun & Hw' & Hh' & Hlen').
  - intros s' Hs' i. rewrite (locate_same_dims img img1) by done.
    intros Hi. apply (in_bounds_same_dims img img1); auto.
    eapply Hprop; eauto. by right.
  - exists img'. split; [done|]. split; [|split]; congruence.
Qed.

(** The transform yields an image for every input. *)
Lemma apply_matte_total img t : is_Some (apply_matte img t).
Proof.
  destruct (fill_from_total (seed_points img) img t) as (img' & Hrun & _).
  - intros s. apply seed_points_proper.
  - unfold apply_matte, fill_corners. rewrite Hrun. by eexists.
Qed.

(** ** The order of iteration does not matter *)

Lemma getpixel_index img c i :
  locate img c = Some i → getpixel img c = data img !! i.
Proof. unfold getpixel. by intros ->. Qed.

(** X12: whatever the order in which the sets [edge] are gone through
    (it may differ from round to round), the fill of a well-formed image
    with a non-negative threshold ends with the same image. *)
Lemma floodfill_any_order order img s value t :
  (∀ n X c, c ∈ order n X ↔ c ∈ X) →
  wf_image img → proper_seed img s → 0 ≤ t →
  floodfill_in order img s value t = floodfill img s value t.
Proof.
  intros Horder Hwf Hprop Ht.
  destruct (getpixel img s) as [bg|] eqn:Hbg.
  - destruct (Z.le_gt_cases (color_diff value bg) t) as [Hnear|Hfar].
    + rewrite (floodfill_skip _ _ _ _ bg) by done.
      unfold floodfill_in. rewrite Hbg.
      destruct (Z.leb_spec (color_diff value bg) t); [done|lia].
    + assert (Hin : in_bounds img s) by (by eapply proper_seed_getpixel).
      destruct (floodfill_in_fills order img s value t bg Horder Hin Hbg Ht
                  Hfar) as (img1 & -> & Hw1 & Hh1 & Hlen1 & Hpix1).
      destruct (floodfill_fills img s value t bg Hin Hbg Ht Hfar)
        as (img2 & -> & Hw2 & Hh2 & Hlen2 & Hpix2).
      f_equal. apply image_eq; [congruence..|].
      apply list_eq. intros i.
      destruct (decide (i < length (data img))%nat) as [Hi|Hi].
      * destruct (index_coord img i Hwf Hi) as (c & Hc & Hloc).
        rewrite <- (getpixel_index img1 c), <- (getpixel_index img2 c)
          by (by rewrite (locate_same_dims img)).
        destruct (Hpix1 c Hc) as [[Hr1 ->]|[Hn1 ->]],
                 (Hpix2 c Hc) as [[Hr2 ->]|[Hn2 ->]]; done.
      * rewrite !(proj2 (lookup_ge_None _ _)); [done|lia..].
  - rewrite floodfill_outside by done. unfold floodfill_in. by rewrite Hbg.
Qed.

(** ** File names and the three patterns, proved *)

Lemma append_nil_l (s : string) : ("" +:+ s)%string = s.
Proof. reflexivity. Qed.

Lemma append_cons c (s1 s2 : string) :
  (String c s1 +:+ s2)%string = String c (s1 +:+ s2).
Proof. reflexivity. Qed.

Lemma star_match pat name :
  glob_match (Star :: pat) name = true ↔
  ∃ pre post, name = (pre +:+ post)%string ∧ glob_match pat post = true.
Proof.
  induction name as [|c name IH].
  - simpl. rewrite orb_false_r. split.
    + intros H. by exists EmptyString, EmptyString.
    + intros (pre & post & Heq & H). destruct pre; [|discriminate].
      rewrite append_nil_l in Heq. by subst post.
  - change (glob_match (Star :: pat) (String c name))
      with (glob_match pat (String c name) || glob_match (Star :: pat) name).
    rewrite orb_true_iff, IH. split.
    + intros [H|(pre & post & -> & H)].
      * by exists EmptyString, (String c name).
      * by exists (String c pre), post.
    + intros (pre & post & Heq & H). destruct pre as [|d pre].
      * left. rewrite append_nil_l in Heq. by subst post.
      * right. rewrite append_cons in Heq. injection Heq as -> ->. eauto.
Qed.

Lemma class_lower (d l u : ascii) :
  (l, u) ∈ [("p", "P"); ("n", "N"); ("g", "G"); ("j", "J"); ("e", "E")]%char →
  existsb (Ascii.eqb d) [l; u] = Ascii.eqb (to_lower d) l.
Proof.
  intros H. repeat (apply elem_of_cons in H as [[= -> ->]|H]);
    [..|by apply elem_of_nil in H];
    destruct d as [[] [] [] [] [] [] [] []]; reflexivity.
Qed.

Lemma png_pattern_spec name :
  glob_match png_pattern name = true ↔ has_extension "png" name.
Proof.
  unfold png_pattern, has_extension. rewrite star_match.
  split; intros (pre & post & -> & H); exists pre.
  - destruct post as [|d0 [|d1 [|d2 [|d3 [|d4 post]]]]]; cbn [glob_match] in H;
      rewrite ?andb_false_r in H; try discriminate.
    rewrite !class_lower in H by (repeat constructor).
    rewrite !andb_true_iff, !Ascii.eqb_eq in H.
    destruct H as (-> & <- & <- & <- & _).
    by exists (String d1 (String d2 (String d3 EmptyString))).
  - destruct post as [|d1 [|d2 [|d3 [|d4 post]]]]; try discriminate.
    simpl in H. injection H as H1 H2 H3.
    eexists. split; [reflexivity|].
    rewrite append_cons, append_nil_l. cbn [glob_match].
    rewrite !class_lower by (repeat constructor).
    rewrite H1, H2, H3. reflexivity.
Qed.

Lemma jpg_pattern_spec name :
  glob_match jpg_pattern name = true ↔ has_extension "jpg" name.
Proof.
  unfold jpg_pattern, has_extension. rewrite star_match.
  split; intros (pre & post & -> & H); exists pre.
  - destruct post as [|d0 [|d1 [|d2 [|d3 [|d4 post]]]]]; cbn [glob_match] in H;
      rewrite ?andb_false_r in H; try discriminate.
    rewrite !class_lower in H by (repeat constructor).
    rewrite !andb_true_iff, !Ascii.eqb_eq in H.
    destruct H as (-> & <- & <- & <- & _).
    by exists (String d1 (String d2 (String d3 EmptyString))).
  - destruct post as [|d1 [|d2 [|d3 [|d4 post]]]]; try discriminate.
    simpl in H. injection H as H1 H2 H3.
    eexists. split; [reflexivity|].
    rewrite append_cons, append_nil_l. cbn [glob_match].
    rewrite !class_lower by (repeat constructor).
    rewrite H1, H2, H3. reflexivity.
Qed.

Lemma jpeg_pattern_spec name :
  glob_match jpeg_pattern name = true ↔ has_extension "jpeg" name.
Proof.
  unfold jpeg_pattern, has_extension. rewrite star_match.
  split; intros (pre & post & -> & H); exists pre.
  - destruct post as [|d0 [|d1 [|d2 [|d3 [|d4 [|d5 post]]]]]]; cbn [glob_match] in H;
      rewrite ?andb_false_r in H; try discriminate.
    rewrite !class_lower in H by (repeat constructor).
    rewrite !andb_true_iff, !Ascii.eqb_eq in H.
    destruct H as (-> & <- & <- & <- & <- & _).
    by exists (String d1 (String d2 (String d3 (String d4 EmptyString)))).
  - destruct post as [|d1 [|d2 [|d3 [|d4 [|d5 post]]]]]; try discriminate.
    simpl in H. injection H as H1 H2 H3 H4.
    eexists. split; [reflexivity|].
    rewrite append_cons, append_nil_l. cbn [glob_match].
    rewrite !class_lower by (repeat constructor).
    rewrite H1, H2, H3, H4. reflexivity.
Qed.

(** The three globs find exactly the entries that are image names. *)
Lemma find_image_files_spec entries name :
  name ∈ find_image_files entries ↔ name ∈ entries ∧ is_image_name name.
Proof.
  unfold find_image_files, glob, is_image_name.
  rewrite !elem_of_app, !list_elem_of_filter,
    png_pattern_spec, jpg_pattern_spec, jpeg_pattern_spec.
  tauto.
Qed.

Lemma find_image_files_none entries :
  (∀ name, name ∈ entries → ¬ is_image_name name) →
  find_image_files entries = [].
Proof.
  intros Hno. destruct (find_image_files entries) as [|name l] eqn:Hl; [done|].
  assert (Hin : name ∈ find_image_files entries) by (rewrite Hl; left).
  apply find_image_files_spec in Hin as [Hin Himg]. by destruct (Hno name).
Qed.

(** ** The batch driver, proved *)

Section BatchFacts.
Context {world exn : Type}.
Variable listdir : world → list string.
Variable image_open : string → world → exn + image.
Variable image_save : string → image → world → option exn * world.
Variable stem : string → string.
Variables (input_path output_path : string) (threshold : Z).

Local Abbreviation single :=
  (_process_single_image image_open image_save stem threshold).
Local Abbreviation attempt := (λ img_path : string,
  try_except (single img_path) (λ e, log (error_failed img_path e))).
Local Abbreviation output_name :=
  (λ img_path : string, (stem img_path +:+ "_transparent.png")%string).
Local Abbreviation attempted' :=
  (attempted image_open image_save stem threshold).

Lemma attempted_length files w entries w' :
  attempted' files w entries w' → length entries = length files.
Proof. induction 1; simpl; congruence. Qed.

Lemma transform_spec img :
  apply_matte img threshold = Some (transform threshold img).
Proof.
  unfold transform. by destruct (apply_matte_total img threshold) as [out ->].
Qed.

(** One file: whatever happens, the attempt returns, with one record
    logged. *)
Lemma attempt_outcome name st :
  ∃ entry w1,
    attempt name st =
      (Returned (), State w1 (st_log st ++ [entry])) ∧
    ∀ rest entries w',
      attempted' rest w1 entries w' →
      attempted' (name :: rest) (st_world st) (entry :: entries) w'.
Proof.
  destruct st as [w l].
  unfold try_except, _process_single_image, open_rgba, save_png, log,
    mbind, M_bind; simpl.
  destruct (image_open name w) as [e|img] eqn:Hopen; simpl.
  - exists (error_failed name e), w. split; [done|].
    intros rest entries w' Hrest. by apply attempted_unreadable.
  - destruct (image_save (output_name name) (transform threshold img) w)
      as [[e|] w1] eqn:Hsave; simpl.
    + exists (error_failed name e), w1. split; [done|].
      intros rest entries w' Hrest.
      eapply attempted_unwritable; eauto using transform_spec.
    + exists (info_saved (output_name name)), w1. split; [done|].
      intros rest entries w' Hrest.
      eapply attempted_saved; eauto using transform_spec.
Qed.

Lemma for_each_attempts files : ∀ st,
  ∃ entries w',
    attempted' files (st_world st) entries w' ∧
    for_each files attempt st =
      (Returned (), State w' (st_log st ++ entries)).
Proof.
  induction files as [|name files IH]; intros st.
  - exists [], (st_world st). split; [constructor|].
    destruct st. simpl. by rewrite app_nil_r.
  - destruct (attempt_outcome name st) as (entry & w1 & Hrun & Hstep).
    destruct (IH (State w1 (st_log st ++ [entry])))
      as (entries & w' & Hrest & Hloop).
    exists (entry :: entries), w'. split; [by apply Hstep|].
    cbn [for_each]. unfold mbind at 1, M_bind at 1. rewrite Hrun.
    rewrite Hloop. simpl. by rewrite <- app_assoc.
Qed.

End BatchFacts.

Lemma floodfill_outcome img t s :
  0 ≤ t → proper_seed img s →
  ∃ img', fill_outcome img t s img' ∧
          width img' = width img ∧ height img' = height img.
Proof.
  intros Ht Hprop. unfold fill_outcome.
  destruct (getpixel img s) as [bg|] eqn:Hbg.
  - destruct (Z.le_gt_cases (color_diff fill_value bg) t) as [Hnear|Hfar].
    + exists img. split; [|done]. split; [by eapply floodfill_skip|auto].
    + assert (Hin : in_bounds img s) by (by eapply proper_seed_getpixel).
      destruct (floodfill_fills img s fill_value t bg Hin Hbg Ht Hfar)
        as (img' & Hrun & Hw & Hh & _ & Hpix).
      exists img'. split; [|done]. split; [done|]. right. split; [done|].
      split; [done|]. split; [done|]. intros c Hc.
      destruct (Hpix c Hc) as [[Hr Hv]|[Hn Heq]].
      * left. split; [|done]. by exists bg.
      * right. split; [|done]. intros (bg' & Hbg' & Hr). apply Hn. congruence.
  - exists img. split; [|done]. split; [by apply floodfill_outside|done].
Qed.

Lemma fill_from_run seeds : ∀ img t,
  0 ≤ t → (∀ s, s ∈ seeds → proper_seed img s) →
  ∃ img', fill_from seeds img t = Some img' ∧ fill_run t seeds img img'.
Proof.
  induction seeds as [|s seeds IH]; intros img t Ht Hprop; simpl.
  - exists img. split; [done|constructor].
  - destruct (floodfill_outcome img t s Ht) as (img1 & Hout & Hw & Hh);
      [apply Hprop; left|].
    destruct (IH img1 t Ht) as (img' & Hrun & Hrest).
    + intros s' Hs' i. rewrite (locate_same_dims img img1) by done.
      intros Hi. apply (in_bounds_same_dims img img1); auto.
      eapply Hprop; eauto. by right.
    + exists img'. destruct Hout as [Hfill Hout]. rewrite Hfill. simpl.
      split; [done|]. econstructor; eauto. by split.
Qed.

(** * The claims *)

(** C1, as stated, fails: on a one-pixel image whose pixel is within the
    threshold of the fill colour, the fill from the corner stores nothing,
    although the corner is joined to itself. *)
Lemma corner_fill_near_fill_colour :
  0 ≤ 10 ∧ (0, 0) ∈ seed_points near_green_1x1 ∧
  ¬ ∃ img', floodfill near_green_1x1 (0, 0) fill_value 10 = Some img' ∧
            fills_exactly near_green_1x1 10 (0, 0) img'.
Proof.
  split; [lia|]. split; [left|].
  intros (img' & Hrun & _ & _ & Hpix).
  vm_compute in Hrun. injection Hrun as <-.
  destruct (Hpix (0, 0)) as [[_ Hv]|[Hn _]].
  - split; simpl; lia.
  - vm_compute in Hv. discriminate.
  - apply Hn. exists (10, 255, 0, 255). split; [reflexivity|].
    apply (reach_seed _ _ _ _ (10, 255, 0, 255)).
    + split; simpl; lia.
    + reflexivity.
    + vm_compute. discriminate.
Qed.

(** C1 (amended): for a non-negative threshold, each of the four corner
    fills of the transform, run on the image as the fills before it have
    left it, stores the fill colour (0,255,0,255) to exactly the pixels
    4-connected to its seed through pixels whose summed absolute RGBA
    difference from the colour the seed has when that fill starts is at
    most the threshold, provided that colour is further than the threshold
    from the fill colour; otherwise, and when the seed names no pixel, that
    fill changes nothing. *)
Theorem corner_fills_exact (img : image) (t : Z) :
  0 ≤ t →
  ∃ img', fill_corners img t = Some img' ∧
          fill_run t (seed_points img) img img'.
Proof.
  intros Ht. apply fill_from_run; [done|].
  intros s. apply seed_points_proper.
Qed.

Lemma corner_fills_exact_witness :
  0 ≤ 10 ∧
  ∃ img', fill_corners scenario_4x4 10 = Some img' ∧
          fill_run 10 (seed_points scenario_4x4) scenario_4x4 img'.
Proof. split; [lia|]. apply (corner_fills_exact scenario_4x4 10). lia. Defined.

(** C2: the second pass comes after the four fills; it replaces every
    pixel whose RGB is exactly (0,255,0), whatever its alpha, by
    (255,255,255,0), and leaves every other pixel as it is.  No threshold
    takes part. *)
Theorem second_pass_exact (img : image) (t : Z) (out : image) :
  apply_matte img t = Some out →
  ∃ filled, fill_corners img t = Some filled ∧
    width out = width filled ∧ height out = height filled ∧
    length (data out) = length (data filled) ∧
    ∀ i r g b a, data filled !! i = Some (r, g, b, a) →
      (r = 0 ∧ g = 255 ∧ b = 0 → data out !! i = Some (255, 255, 255, 0)) ∧
      (¬ (r = 0 ∧ g = 255 ∧ b = 0) → data out !! i = Some (r, g, b, a)).
Proof.
  unfold apply_matte. destruct (fill_corners img t) as [filled|]; [|done].
  simpl. intros [= <-]. exists filled. split; [done|].
  split; [done|]. split; [done|]. split; [simpl; by rewrite length_fmap|].
  intros i r g b a Hi. simpl. unfold pixel in *.
  rewrite list_lookup_fmap, Hi. simpl.
  unfold replace_item, is_chroma. split.
  - intros (-> & -> & ->). reflexivity.
  - intros Hne.
    destruct (Z.eqb_spec r 0), (Z.eqb_spec g 255), (Z.eqb_spec b 0);
      simpl; tauto.
Qed.

Lemma second_pass_exact_witness :
  apply_matte scenario_4x4 10 = Some scenario_4x4_out ∧
  ∃ filled, fill_corners scenario_4x4 10 = Some filled ∧
    width scenario_4x4_out = width filled ∧
    height scenario_4x4_out = height filled ∧
    length (data scenario_4x4_out) = length (data filled) ∧
    ∀ i r g b a, data filled !! i = Some (r, g, b, a) →
      (r = 0 ∧ g = 255 ∧ b = 0 →
       data scenario_4x4_out !! i = Some (255, 255, 255, 0)) ∧
      (¬ (r = 0 ∧ g = 255 ∧ b = 0) →
       data scenario_4x4_out !! i = Some (r, g, b, a)).
Proof.
  split; [vm_compute; reflexivity|].
  apply (second_pass_exact scenario_4x4 10 scenario_4x4_out).
  vm_compute; reflexivity.
Defined.

(** C3: on the 4x4 image that is pure white but for a pure red 2x2 centre,
    the transform with threshold 10 leaves the 12 border pixels with alpha
    0 and the 4 centre pixels exactly (255,0,0,255). *)
Theorem scenario_4x4_result :
  ∃ out, apply_matte scenario_4x4 10 = Some out ∧
    Forall (λ c, ∃ r g b, getpixel out c = Some (r, g, b, 0)) border_4x4 ∧
    Forall (λ c, getpixel out c = Some (255, 0, 0, 255)) centre_4x4.
Proof.
  exists scenario_4x4_out. split; [vm_compute; reflexivity|]. split.
  - repeat constructor; exists 255, 255, 255; reflexivity.
  - repeat constructor.
Qed.

(** C4: a pixel that is not 4-connected within the threshold to any of the
    four corner seeds keeps its RGB and alpha, unless its RGB is exactly
    (0,255,0); a pixel whose RGB is exactly (0,255,0) becomes transparent,
    joined to a corner or not. *)
Theorem unconnected_pixels_kept (img : image) (t : Z) :
  0 ≤ t →
  ∃ out, apply_matte img t = Some out ∧
    ∀ c q, in_bounds img c → getpixel img c = Some q →
      ((∀ s, s ∈ seed_points img → ¬ connected img t s c) →
       getpixel out c = Some (if is_chroma q then transparent else q)) ∧
      (is_chroma q = true → getpixel out c = Some transparent).
Proof.
  intros Ht. destruct (apply_matte_runs img t Ht) as (img' & _ & Hrun & Hinv).
  exists (replace_chroma img'). split; [done|]. intros c q Hc Hq.
  rewrite getpixel_replace_chroma.
  destruct (fi_pix _ _ _ _ Hinv c Hc) as [->|[-> (s & Hs & Hr)]];
    rewrite ?Hq; simpl; unfold replace_item.
  - split; [done|]. by intros ->.
  - split; [|done]. intros Hno. destruct (Hno s Hs).
    by apply region_connected.
Qed.

Lemma unconnected_pixels_kept_witness :
  0 ≤ 10 ∧
  ∃ out, apply_matte scenario_4x4 10 = Some out ∧
    ∀ c q, in_bounds scenario_4x4 c → getpixel scenario_4x4 c = Some q →
      ((∀ s, s ∈ seed_points scenario_4x4 →
             ¬ connected scenario_4x4 10 s c) →
       getpixel out c = Some (if is_chroma q then transparent else q)) ∧
      (is_chroma q = true → getpixel out c = Some transparent).
Proof.
  split; [lia|]. apply (unconnected_pixels_kept scenario_4x4 10). lia.
Defined.

(** C5, as stated, fails, and in two ways.  A corner within 10 but not
    within 5 of the fill colour is filled at threshold 5 and skipped at
    threshold 10.  And at threshold 10 the fill from the first corner
    takes the third corner along, so that the fill from there, which at
    threshold 5 reaches the pixel in between, is not run. *)
Lemma threshold_not_monotone :
  5 ≤ 10 ∧
  ¬ threshold_monotone near_green_1x1 5 10 ∧
  ¬ threshold_monotone detour_3x2 5 10.
Proof.
  split; [lia|]. split.
  - intros H. destruct (H (0, 0)) as (out & Hrun & Hp).
    + split; simpl; lia.
    + exists (Image 1 1 [transparent]). split; vm_compute; reflexivity.
    + vm_compute in Hrun. injection Hrun as <-. vm_compute in Hp.
      discriminate.
  - intros H. destruct (H (1, 0)) as (out & Hrun & Hp).
    + split; simpl; lia.
    + exists (Image 3 2 [transparent; transparent; transparent;
                         transparent; transparent; transparent]).
      split; vm_compute; reflexivity.
    + vm_compute in Hrun. injection Hrun as <-. vm_compute in Hp.
      discriminate.
Qed.

(** C5 (amended): for an image whose corner pixels all have one colour,
    and thresholds 0 <= t1 <= t2 below the distance of that colour from
    the fill colour, every pixel made transparent with threshold t1 is
    made transparent with threshold t2. *)
Theorem threshold_monotone_one_corner_colour
    (img : image) (bg : pixel) (t1 t2 : Z) :
  0 ≤ t1 → t1 ≤ t2 → t2 < color_diff fill_value bg →
  (∀ s p, s ∈ seed_points img → getpixel img s = Some p → p = bg) →
  threshold_monotone img t1 t2.
Proof.
  intros Ht1 Ht12 Hfar Hbg c Hc (out1 & Hrun1 & Hp1).
  destruct (fill_corners_same img bg t1) as (img1 & Hfill1 & Hpix1);
    [lia..|done|].
  destruct (fill_corners_same img bg t2) as (img2 & Hfill2 & Hpix2);
    [lia..|done|].
  unfold apply_matte in Hrun1. rewrite Hfill1 in Hrun1.
  simpl in Hrun1. injection Hrun1 as <-.
  exists (replace_chroma img2). split.
  { unfold apply_matte. by rewrite Hfill2. }
  rewrite getpixel_replace_chroma in *.
  destruct (Hpix2 c Hc) as [[-> _]|[-> Hno2]]; [done|].
  destruct (Hpix1 c Hc) as [[_ (s & Hs & Hr)]|[Heq _]].
  - destruct Hno2. exists s. split; [done|]. by apply (reach_mono _ _ t1).
  - by rewrite <- Heq.
Qed.

Lemma threshold_monotone_one_corner_colour_witness :
  0 ≤ 5 ∧ 5 ≤ 10 ∧ 10 < color_diff fill_value white ∧
  (∀ s p, s ∈ seed_points scenario_4x4 → getpixel scenario_4x4 s = Some p →
          p = white) ∧
  threshold_monotone scenario_4x4 5 10.
Proof.
  assert (Hcorners : ∀ s p, s ∈ seed_points scenario_4x4 →
                            getpixel scenario_4x4 s = Some p → p = white).
  { intros s p Hs.
    repeat (apply elem_of_cons in Hs as [->|Hs]);
      [..|by apply elem_of_nil in Hs]; vm_compute; congruence. }
  split; [lia|]. split; [lia|]. split; [vm_compute; reflexivity|].
  split; [exact Hcorners|].
  apply (threshold_monotone_one_corner_colour scenario_4x4 white 5 10);
    [lia|lia|vm_compute; reflexivity|exact Hcorners].
Defined.

(** C6, as stated, fails: a faint pixel next to the background is not
    within 100 of the black corners, but it is within 100 of the
    placeholder those corners become, so the second application takes it. *)
Lemma second_application_differs :
  wf_image faint_3x1 ∧ 0 ≤ 100 ∧
  apply_matte faint_3x1 100
    = Some (Image 3 1 [transparent; faint; transparent]) ∧
  apply_matte (Image 3 1 [transparent; faint; transparent]) 100
    = Some (Image 3 1 [transparent; transparent; transparent]) ∧
  Image 3 1 [transparent; transparent; transparent]
    ≠ Image 3 1 [transparent; faint; transparent].
Proof.
  split; [repeat split; simpl; lia|]. split; [lia|].
  split; [vm_compute; reflexivity|]. split; [vm_compute; reflexivity|].
  discriminate.
Qed.

(** C6 (amended): let [out] be the result of one application.  A second
    application with the same threshold yields [out] again if, for every
    corner of [out] whose colour is further than the threshold from the
    fill colour, no pixel of [out] other than the placeholder
    (255,255,255,0) is within the threshold of that corner's colour; this
    is so whenever the threshold is 0.  In any case the second application
    changes a pixel of [out] only by making it the placeholder. *)
Theorem second_application (img : image) (t : Z) (out : image) :
  wf_image img → 0 ≤ t → apply_matte img t = Some out →
  (settled out t → apply_matte out t = Some out) ∧
  (t = 0 → apply_matte out t = Some out) ∧
  ∃ out2, apply_matte out t = Some out2 ∧
    ∀ c p, in_bounds out c → getpixel out c = Some p →
      getpixel out2 c = Some p ∨ getpixel out2 c = Some transparent.
Proof.
  intros Hwf Ht Hrun.
  destruct (apply_matte_runs img t Ht) as (img' & Hfill & Hrun' & Hinv).
  rewrite Hrun in Hrun'. injection Hrun' as ->.
  assert (Hwf' : wf_image (replace_chroma img')).
  { apply replace_chroma_wf. eapply fills_inv_wf; eauto. }
  assert (Hclean : ∀ p, p ∈ data (replace_chroma img') → is_chroma p = false)
    by apply replace_chroma_clean.
  split; [by apply apply_matte_settled|]. split.
  - intros ->. apply apply_matte_settled; auto.
    by apply (replace_chroma_settled_0 img).
  - destruct (apply_matte_runs (replace_chroma img') t Ht)
      as (img2 & _ & Hrun2 & Hinv2).
    exists (replace_chroma img2). split; [done|]. intros c p Hc Hp.
    rewrite getpixel_replace_chroma.
    destruct (fi_pix _ _ _ _ Hinv2 c Hc) as [->|[-> _]]; [left|by right].
    rewrite Hp. simpl. f_equal. unfold replace_item. rewrite Hclean; [done|].
    unfold getpixel in Hp.
    destruct (locate (replace_chroma img') c) as [i|]; [|done].
    eapply list_elem_of_lookup_2; eauto.
Qed.

Lemma second_application_witness :
  wf_image scenario_4x4 ∧ 0 ≤ 10 ∧
  apply_matte scenario_4x4 10 = Some scenario_4x4_out ∧
  (settled scenario_4x4_out 10 →
   apply_matte scenario_4x4_out 10 = Some scenario_4x4_out) ∧
  (10 = 0 → apply_matte scenario_4x4_out 10 = Some scenario_4x4_out) ∧
  ∃ out2, apply_matte scenario_4x4_out 10 = Some out2 ∧
    ∀ c p, in_bounds scenario_4x4_out c →
      getpixel scenario_4x4_out c = Some p →
      getpixel out2 c = Some p ∨ getpixel out2 c = Some transparent.
Proof.
  assert (Hwf : wf_image scenario_4x4) by (repeat split; simpl; lia).
  split; [exact Hwf|]. split; [lia|]. split; [vm_compute; reflexivity|].
  apply (second_application scenario_4x4 10 scenario_4x4_out);
    [exact Hwf|lia|vm_compute; reflexivity].
Defined.

(** C7: no pixel of the image the transform produces has RGB exactly
    (0,255,0), whatever the input image and the threshold. *)
Theorem no_chroma_in_output (img : image) (t : Z) :
  ∃ out, apply_matte img t = Some out ∧
    ∀ r g b a, ((r, g, b, a) : pixel) ∈ data out →
      ¬ (r = 0 ∧ g = 255 ∧ b = 0).
Proof.
  destruct (apply_matte_total img t) as [out Hrun]. exists out.
  split; [done|]. intros r g b a Hin (-> & -> & ->).
  unfold apply_matte in Hrun.
  destruct (fill_corners img t) as [img'|]; [|done].
  simpl in Hrun. injection Hrun as <-.
  by apply replace_chroma_clean in Hin.
Qed.

(** C10, as stated, fails in its second half: the right corner of this
    image is within 10 of the fill value and its RGB is not (0,255,0), the
    fill launched from it stores nothing, and yet it comes out transparent,
    as does the whole image: the fill from the left corner, whose colour is
    20 from the fill value, runs and reaches it. *)
Lemma near_chroma_corner_taken :
  0 ≤ 10 ∧ (1, 0) ∈ seed_points greenish_pair ∧
  getpixel greenish_pair (1, 0) = Some greenish ∧
  color_diff fill_value greenish ≤ 10 ∧ is_chroma greenish = false ∧
  apply_matte greenish_pair 10 = Some (Image 2 1 [transparent; transparent]).
Proof.
  split; [lia|]. split; [right; left|]. split; [reflexivity|].
  split; [vm_compute; discriminate|]. split; reflexivity.
Qed.

(** C10 (amended): when the pixel a corner seed has in the input image is
    within the threshold of the fill value (0,255,0,255), the fill launched
    from that corner stores nothing: it finds the pixel as it was, or
    already made the fill value by an earlier fill, and returns at once.
    So a pixel whose RGB is not exactly (0,255,0), and which is joined
    within the threshold to such corners only, comes out of the transform
    as it went in: a background close to pure green stays opaque, unless
    the running fill of another corner reaches it. *)
Theorem near_chroma_corner_skipped
    (img : image) (t : Z) (s : coord) (bg : pixel) :
  0 ≤ t → s ∈ seed_points img → getpixel img s = Some bg →
  color_diff fill_value bg ≤ t →
  (∀ pre post cur, seed_points img = pre ++ s :: post →
     fill_from pre img t = Some cur →
     floodfill cur s fill_value t = Some cur) ∧
  ∃ out, apply_matte img t = Some out ∧
    ∀ c q, in_bounds img c → getpixel img c = Some q → is_chroma q = false →
      (∀ s', s' ∈ seed_points img → connected img t s' c →
             ∃ bg', getpixel img s' = Some bg' ∧
                    color_diff fill_value bg' ≤ t) →
      getpixel out c = Some q.
Proof.
  intros Ht Hs Hbg Hnear. split.
  - intros pre post cur Hsplit Hrun.
    destruct (fill_from_frame pre img img t (seed_points img) Ht
                (fills_inv_refl _ _ _)) as (cur' & Hrun' & Hinv).
    { intros s' Hs'.
      assert (s' ∈ seed_points img)
        by (rewrite Hsplit; apply elem_of_app; by left).
      split; [done|]. by apply seed_points_proper. }
    rewrite Hrun in Hrun'. injection Hrun' as <-.
    assert (Hin : in_bounds img s).
    { eapply proper_seed_getpixel; eauto. by apply seed_points_proper. }
    destruct (fi_pix _ _ _ _ Hinv s Hin) as [Hcur|[Hcur _]].
    + apply (floodfill_skip _ _ _ _ bg); [congruence|done].
    + apply (floodfill_skip _ _ _ _ fill_value); [done|].
      by rewrite color_diff_refl.
  - destruct (apply_matte_frame img t Ht) as (out & Hrun & Hkeep).
    exists out. split; [done|]. intros c q Hc Hq Hnot Hcorners.
    rewrite (Hkeep c q Hc Hq).
    + unfold replace_item. by rewrite Hnot.
    + intros s' Hs' Hr.
      destruct (Hcorners s' Hs' (region_connected _ _ _ _ Hr))
        as (bg' & Hbg' & Hnear').
      destruct Hr as (bg'' & Hbg'' & Hfar & _).
      rewrite Hbg' in Hbg''. injection Hbg'' as <-. lia.
Qed.

Lemma near_chroma_corner_skipped_witness :
  0 ≤ 10 ∧ (0, 0) ∈ seed_points greenish_2x2 ∧
  getpixel greenish_2x2 (0, 0) = Some greenish ∧
  color_diff fill_value greenish ≤ 10 ∧
  (∀ pre post cur, seed_points greenish_2x2 = pre ++ (0, 0) :: post →
     fill_from pre greenish_2x2 10 = Some cur →
     floodfill cur (0, 0) fill_value 10 = Some cur) ∧
  ∃ out, apply_matte greenish_2x2 10 = Some out ∧
    ∀ c q, in_bounds greenish_2x2 c → getpixel greenish_2x2 c = Some q →
      is_chroma q = false →
      (∀ s', s' ∈ seed_points greenish_2x2 → connected greenish_2x2 10 s' c →
             ∃ bg', getpixel greenish_2x2 s' = Some bg' ∧
                    color_diff fill_value bg' ≤ 10) →
      getpixel out c = Some q.
Proof.
  split; [lia|]. split; [left|]. split; [reflexivity|].
  split; [vm_compute; discriminate|].
  apply (near_chroma_corner_skipped greenish_2x2 10 (0, 0) greenish);
    [lia|left|reflexivity|vm_compute; discriminate].
Defined.

(** The greenish image comes back unchanged. *)
Example greenish_2x2_kept : apply_matte greenish_2x2 10 = Some greenish_2x2.
Proof. vm_compute. reflexivity. Qed.

(** C8: when image files have been found, every one of them is attempted,
    in order; an exception raised while one is opened, transformed or
    saved is caught and logged for that file, and the next file is taken
    up from the file system as that attempt left it; after the last file
    the completion message is logged and the call returns normally,
    however many files failed. *)
Theorem batch_isolates_failures {world exn : Type}
    (listdir : world → list string)
    (image_open : string → world → exn + image)
    (image_save : string → image → world → option exn * world)
    (stem : string → string) (input_path output_path : string)
    (threshold : Z) (st : @state world exn) :
  find_image_files (listdir (st_world st)) ≠ [] →
  ∃ entries w',
    attempted image_open image_save stem threshold
      (find_image_files (listdir (st_world st))) (st_world st) entries w' ∧
    length entries = length (find_image_files (listdir (st_world st))) ∧
    process_directory listdir image_open image_save stem
        input_path output_path threshold st
      = (Returned (),
         State w' (st_log st ++ [info_start input_path output_path]
                   ++ entries ++ [info_done])).
Proof.
  intros Hfound.
  destruct (for_each_attempts image_open image_save stem threshold
              (find_image_files (listdir (st_world st)))
              (State (st_world st)
                     (st_log st ++ [info_start input_path output_path])))
    as (entries & w' & Hatt & Hloop).
  exists entries, w'. split; [done|].
  split; [by eapply attempted_length|].
  unfold process_directory, image_files_found, log, mbind, M_bind in *.
  simpl in *.
  destruct (find_image_files (listdir (st_world st))) as [|name files];
    [done|].
  rewrite Hloop. simpl. by rewrite <- !app_assoc.
Qed.

(** C9: when the input directory has no entry whose name ends in .png,
    .jpg or .jpeg in any mix of cases, the call logs the start message and
    the warning, saves nothing (the file system is as it was), returns
    normally, and does not log the completion message. *)
Theorem batch_nothing_found {world exn : Type}
    (listdir : world → list string)
    (image_open : string → world → exn + image)
    (image_save : string → image → world → option exn * world)
    (stem : string → string) (input_path output_path : string)
    (threshold : Z) (st : @state world exn) :
  (∀ name, name ∈ listdir (st_world st) → ¬ is_image_name name) →
  process_directory listdir image_open image_save stem
      input_path output_path threshold st
    = (Returned (),
       State (st_world st)
             (st_log st ++ [info_start input_path output_path;
                            warning_no_images])) ∧
  info_done ∉ [info_start input_path output_path; @warning_no_images exn].
Proof.
  intros Hno. split.
  - unfold process_directory, image_files_found, log, mbind, M_bind. simpl.
    rewrite (find_image_files_none _ Hno). simpl. by rewrite <- app_assoc.
  - intros Hin. repeat (apply elem_of_cons in Hin as [Hin|Hin]);
      [discriminate..|by apply elem_of_nil in Hin].
Qed.

Lemma batch_isolates_failures_witness :
  find_image_files (three_entries []) ≠ [] ∧
  ∃ entries w',
    attempted open_unless_corrupt save_always id 100
      (find_image_files (three_entries [])) [] entries w' ∧
    length entries = length (find_image_files (three_entries [])) ∧
    process_directory three_entries open_unless_corrupt save_always id
        "images" "output" 100 (State [] [])
      = (Returned (),
         State w' ([] ++ [info_start "images" "output"]
                   ++ entries ++ [info_done])).
Proof.
  split; [vm_compute; discriminate|].
  apply (batch_isolates_failures three_entries open_unless_corrupt
           save_always id "images" "output" 100 (State [] [])).
  vm_compute; discriminate.
Defined.

(** The run on the three entries: two files saved, one error logged. *)
Example batch_three_entries :
  process_directory three_entries open_unless_corrupt save_always id
      "images" "output" 100 (State [] [])
    = (Returned (),
       State ["good.png_transparent.png"; "good2.jpg_transparent.png"]%string
             [info_start "images" "output";
              info_saved "good.png_transparent.png";
              error_failed "corrupt.png" "cannot identify image file"%string;
              info_saved "good2.jpg_transparent.png";
              info_done]).
Proof. vm_compute. reflexivity. Qed.

Lemma batch_nothing_found_witness :
  (∀ name, name ∈ no_images [] → ¬ is_image_name name) ∧
  process_directory no_images open_unless_corrupt save_always id
      "images" "output" 100 (State [] [])
    = (Returned (),
       State [] ([] ++ [info_start "images" "output"; warning_no_images])) ∧
  info_done ∉ [info_start "images" "output"; @warning_no_images string].
Proof.
  assert (Hno : ∀ name, name ∈ no_images [] → ¬ is_image_name name).
  { intros name Hin.
    repeat (apply elem_of_cons in Hin as [->|Hin]);
      [..|by apply elem_of_nil in Hin];
      (intros [H|[H|H]];
       [apply png_pattern_spec in H|apply jpg_pattern_spec in H
       |apply jpeg_pattern_spec in H]; vm_compute in H; discriminate). }
  split; [exact Hno|].
  apply (batch_nothing_found no_images open_unless_corrupt save_always id
           "images" "output" 100 (State [] [])).
  exact Hno.
Defined.

(** * Further properties of the code *)

(** ** The transform *)

Lemma floodfill_negative_eq img s value t :
  t < 0 →
  floodfill img s value t =
    Some (match getpixel img s with
          | Some _ => putpixel img s value
          | None => img
          end).
Proof.
  intros Ht. unfold floodfill, floodfill_in.
  destruct (getpixel img s) as [bg|]; [|done].
  pose proof (color_diff_nonneg value bg).
  destruct (Z.leb_spec (color_diff value bg) t); [lia|].
  change (2 + length (data img))%nat with (S (S (length (data img)))).
  cbn [flood_loop].
  destruct (decide (({[ s ]} : gset coord) = ∅)) as [He|_].
  { exfalso. apply (not_elem_of_empty (C := gset coord) s).
    rewrite <- He. by apply elem_of_singleton. }
  destruct (sweep_negative bg value t (elements ({[ s ]} : gset coord))
              (FillState (putpixel img s value) ∅ ∅) Ht) as [-> ->].
  simpl. by destruct (decide ((∅ : gset coord) = ∅)).
Qed.

Lemma proper_seed_same_dims img img' s :
  width img' = width img → height img' = height img →
  proper_seed img s → proper_seed img' s.
Proof.
  intros Hw Hh Hprop i. rewrite (locate_same_dims img img') by done.
  intros Hi. apply (in_bounds_same_dims img img'); eauto.
Qed.

Lemma fill_from_app l1 l2 img t :
  fill_from (l1 ++ l2) img t =
    img1 ← fill_from l1 img t; fill_from l2 img1 t.
Proof.
  revert img. induction l1 as [|s l1 IH]; intros img; simpl; [done|].
  destruct (floodfill img s fill_value t) as [img1|]; simpl; [apply IH|done].
Qed.

(** Below zero a fill stores to its seed and to nothing else. *)
Lemma fill_from_negative seeds : ∀ img t,
  t < 0 → (∀ s, s ∈ seeds → proper_seed img s) →
  ∃ img', fill_from seeds img t = Some img' ∧
    width img' = width img ∧ height img' = height img ∧
    ∀ c q, in_bounds img c → getpixel img c = Some q →
      getpixel img' c
        = Some (if bool_decide (c ∈ seeds) then fill_value else q).
Proof.
  induction seeds as [|s seeds IH]; intros img t Ht Hprop; simpl.
  - exists img. repeat split; auto.
  - rewrite floodfill_negative_eq by done. simpl.
    set (img1 := match getpixel img s with
                 | Some _ => putpixel img s fill_value
                 | None => img
                 end).
    assert (Hw : width img1 = width img)
      by (unfold img1; destruct (getpixel img s);
          auto using width_putpixel).
    assert (Hh : height img1 = height img)
      by (unfold img1; destruct (getpixel img s);
          auto using height_putpixel).
    destruct (IH img1 t Ht) as (img' & Hrun & Hw' & Hh' & Hpix).
    { intros s' Hs'. apply (proper_seed_same_dims img); auto.
      apply Hprop. by right. }
    exists img'. split; [done|]. split; [congruence|]. split; [congruence|].
    intros c q Hc Hq.
    assert (Hc1 : in_bounds img1 c) by (by apply (in_bounds_same_dims img)).
    destruct (decide (c = s)) as [->|Hne].
    + assert (Hq1 : getpixel img1 s = Some fill_value).
      { unfold img1. rewrite Hq. eapply getpixel_putpixel_same; eauto. }
      rewrite (Hpix s fill_value Hc1 Hq1).
      rewrite (bool_decide_eq_true_2 (s ∈ s :: seeds)) by left.
      by destruct (bool_decide (s ∈ seeds)).
    + assert (Hq1 : getpixel img1 c = Some q).
      { unfold img1. destruct (getpixel img s) as [bg|] eqn:Hbg; [|done].
        rewrite getpixel_putpixel_other; auto.
        eapply proper_seed_getpixel; eauto. apply Hprop. left. }
      rewrite (Hpix c q Hc1 Hq1). f_equal.
      destruct (decide (c ∈ seeds)) as [Hin|Hnin].
      * rewrite !bool_decide_eq_true_2; [done|by right|done].
      * rewrite !bool_decide_eq_false_2; [done| |done].
        intros [?|?]%elem_of_cons; done.
Qed.

(** Whatever the threshold, the four fills leave at a place the pixel that
    was there or the fill colour. *)
Lemma fill_corners_choice img t :
  ∃ img', fill_corners img t = Some img' ∧
    width img' = width img ∧ height img' = height img ∧
    length (data img') = length (data img) ∧
    ∀ c, in_bounds img c →
      getpixel img' c = getpixel img c ∨ getpixel img' c = Some fill_value.
Proof.
  destruct (fill_from_total (seed_points img) img t)
    as (img' & Hrun & Hw & Hh & Hlen);
    [intros s; apply seed_points_proper|].
  exists img'. unfold fill_corners. repeat (split; [done|]).
  intros c Hc. destruct (Z.lt_ge_cases t 0) as [Ht|Ht].
  - destruct (fill_from_negative (seed_points img) img t Ht)
      as (img'' & Hrun' & _ & _ & Hpix);
      [intros s; apply seed_points_proper|].
    rewrite Hrun in Hrun'. injection Hrun' as <-.
    destruct (getpixel img c) as [q|] eqn:Hq.
    + rewrite (Hpix c q Hc Hq). destruct (bool_decide _); auto.
    + left. unfold getpixel in *. rewrite (locate_same_dims img img') by done.
      destruct (locate img c) as [i|]; [|done]. simpl in *.
      apply lookup_ge_None. apply lookup_ge_None in Hq. lia.
  - destruct (fill_corners_frame img t Ht) as (img'' & Hrun' & Hinv).
    unfold fill_corners in Hrun'. rewrite Hrun in Hrun'.
    injection Hrun' as <-.
    destruct (fi_pix _ _ _ _ Hinv c Hc) as [?|[? _]]; auto.
Qed.

(** X1: the transform keeps the size of the image: width, height and the
    number of pixels of the result are those of the input, whatever the
    threshold; a well-formed image stays well-formed. *)
Theorem apply_matte_keeps_size (img : image) (t : Z) :
  ∃ out, apply_matte img t = Some out ∧
    width out = width img ∧ height out = height img ∧
    length (data out) = length (data img) ∧
    (wf_image img → wf_image out).
Proof.
  destruct (fill_corners_choice img t) as (img' & Hrun & Hw & Hh & Hlen & _).
  exists (replace_chroma img'). unfold apply_matte. rewrite Hrun.
  split; [done|]. split; [done|]. split; [done|].
  split; [simpl; by rewrite length_fmap|].
  intros Hwf. apply replace_chroma_wf. unfold wf_image in *.
  by rewrite Hw, Hh, Hlen.
Qed.

(** X2: whatever the threshold, every pixel of the result is the pixel the
    input has at that place or the placeholder (255,255,255,0): the
    transform makes no other colour and never raises an alpha. *)
Theorem apply_matte_pixel_choice (img : image) (t : Z) :
  ∃ out, apply_matte img t = Some out ∧
    ∀ c q, in_bounds img c → getpixel img c = Some q →
      getpixel out c = Some q ∨ getpixel out c = Some (255, 255, 255, 0).
Proof.
  destruct (fill_corners_choice img t) as (img' & Hrun & _ & _ & _ & Hpix).
  exists (replace_chroma img'). unfold apply_matte. rewrite Hrun.
  split; [done|]. intros c q Hc Hq. rewrite getpixel_replace_chroma.
  destruct (Hpix c Hc) as [->| ->]; [|by right].
  rewrite Hq. simpl. unfold replace_item. destruct (is_chroma q); auto.
Qed.

(** A pixel that has the fill colour keeps it through later fills. *)
Lemma fill_from_keeps_value seeds img img' t c :
  0 ≤ t → (∀ s, s ∈ seeds → proper_seed img s) →
  fill_from seeds img t = Some img' → in_bounds img c →
  getpixel img c = Some fill_value → getpixel img' c = Some fill_value.
Proof.
  intros Ht Hprop Hrun Hc Hv.
  destruct (fill_from_frame seeds img img t seeds Ht (fills_inv_refl _ _ _))
    as (img'' & Hrun' & Hinv); [by auto|].
  rewrite Hrun in Hrun'. injection Hrun' as <-.
  destruct (fi_pix _ _ _ _ Hinv c Hc) as [Heq|[? _]]; congruence.
Qed.

(** A seed whose colour is further than the threshold from the fill colour
    has the fill colour once the fills are through. *)
Lemma fill_from_clears_seed seeds : ∀ img t s bg,
  0 ≤ t → (∀ s', s' ∈ seeds → proper_seed img s') → s ∈ seeds →
  getpixel img s = Some bg → t < color_diff fill_value bg →
  ∃ img', fill_from seeds img t = Some img' ∧
          getpixel img' s = Some fill_value.
Proof.
  intros img t s bg Ht Hprop Hs Hbg Hfar.
  apply list_elem_of_split in Hs as (pre & post & ->).
  assert (Hin : in_bounds img s).
  { eapply proper_seed_getpixel; eauto. apply Hprop, elem_of_app.
    right; left. }
  destruct (fill_from_frame pre img img t pre Ht (fills_inv_refl _ _ _))
    as (cur & Hpre & Hinv).
  { intros s' Hs'. split; [done|]. apply Hprop, elem_of_app. by left. }
  assert (Hin' : in_bounds cur s)
    by (apply (in_bounds_same_dims img); [apply Hinv..|done]).
  assert (∃ cur', floodfill cur s fill_value t = Some cur' ∧
                  width cur' = width img ∧ height cur' = height img ∧
                  getpixel cur' s = Some fill_value)
    as (cur' & Hfill & Hw & Hh & Hv).
  { destruct (fi_pix _ _ _ _ Hinv s Hin) as [Heq|[Hv _]].
    - rewrite Hbg in Heq.
      destruct (floodfill_fills cur s fill_value t bg Hin' Heq Ht Hfar)
        as (cur' & Hfill & Hw & Hh & _ & Hpix).
      exists cur'. split; [done|].
      split; [rewrite Hw; apply Hinv|]. split; [rewrite Hh; apply Hinv|].
      destruct (Hpix s Hin') as [[_ ?]|[Hn _]]; [done|].
      destruct Hn. eapply reach_seed; eauto. by rewrite color_diff_refl.
    - exists cur. split; [|split; [apply Hinv|split; [apply Hinv|done]]].
      apply (floodfill_skip _ _ _ _ fill_value); [done|].
      by rewrite color_diff_refl. }
  destruct (fill_from_total post cur' t) as (img' & Hpost & _).
  { intros s' Hs'. apply (proper_seed_same_dims img); auto.
    apply Hprop, elem_of_app. right. by right. }
  exists img'. split.
  - rewrite fill_from_app, Hpre. simpl. rewrite Hfill. simpl. done.
  - apply (fill_from_keeps_value post cur' img' t s); auto.
    + intros s' Hs'. apply (proper_seed_same_dims img); auto.
      apply Hprop, elem_of_app. right. by right.
    + by apply (in_bounds_same_dims img).
Qed.

(** X3: with a non-negative threshold, every pixel 4-connected within the
    threshold to the top left corner comes out transparent, provided the
    colour of that corner is further than the threshold from the fill
    value.  (For the other corners this holds of the image as the earlier
    fills have left it, not of the input.) *)
Theorem first_corner_region_cleared
    (img : image) (t : Z) (bg : pixel) (c : coord) :
  0 ≤ t → getpixel img (0, 0) = Some bg → t < color_diff fill_value bg →
  reach img bg t (0, 0) c →
  ∃ out, apply_matte img t = Some out ∧
         getpixel out c = Some (255, 255, 255, 0).
Proof.
  intros Ht Hbg Hfar Hr.
  assert (Hin : in_bounds img (0, 0)).
  { eapply proper_seed_getpixel; eauto. apply seed_points_proper. left. }
  destruct (floodfill_fills img (0, 0) fill_value t bg Hin Hbg Ht Hfar)
    as (img1 & Hfill & Hw & Hh & _ & Hpix).
  pose proof (reach_in_bounds _ _ _ _ _ Hr) as Hc.
  assert (Hv : getpixel img1 c = Some fill_value).
  { destruct (Hpix c Hc) as [[_ ?]|[Hn _]]; [done|by destruct Hn]. }
  assert (Hprop : ∀ s, s ∈ [(width img - 1, 0); (0, height img - 1);
                            (width img - 1, height img - 1)] →
                       proper_seed img1 s).
  { intros s Hs. apply (proper_seed_same_dims img); auto.
    apply seed_points_proper. by right. }
  destruct (fill_from_total _ img1 t Hprop) as (img' & Hrest & _).
  assert (Hrun : fill_corners img t = Some img').
  { unfold fill_corners, seed_points. cbn [fill_from]. rewrite Hfill.
    exact Hrest. }
  exists (replace_chroma img'). split.
  - unfold apply_matte. by rewrite Hrun.
  - rewrite getpixel_replace_chroma.
    rewrite (fill_from_keeps_value _ img1 img' t c Ht Hprop Hrest); [done| |done].
    by apply (in_bounds_same_dims img).
Qed.

Lemma first_corner_region_cleared_witness :
  0 ≤ 10 ∧ getpixel scenario_4x4 (0, 0) = Some white ∧
  10 < color_diff fill_value white ∧
  reach scenario_4x4 white 10 (0, 0) (0, 1) ∧
  ∃ out, apply_matte scenario_4x4 10 = Some out ∧
         getpixel out (0, 1) = Some (255, 255, 255, 0).
Proof.
  assert (Hr : reach scenario_4x4 white 10 (0, 0) (0, 1)).
  { apply (reach_step _ _ _ _ (0, 0) (0, 1) white).
    - apply (reach_seed _ _ _ _ white); [split; simpl; lia|reflexivity|].
      vm_compute. discriminate.
    - do 2 right. left.
    - split; simpl; lia.
    - reflexivity.
    - vm_compute. discriminate. }
  split; [lia|]. split; [reflexivity|]. split; [vm_compute; reflexivity|].
  split; [exact Hr|].
  apply (first_corner_region_cleared scenario_4x4 10 white (0, 1));
    [lia|reflexivity|vm_compute; reflexivity|exact Hr].
Defined.

(** X4: on an image whose corner pixels all have one colour, further than
    the non-negative threshold from the fill value, the result is known
    pixel by pixel: a pixel 4-connected within the threshold to some
    corner is transparent, and every other pixel is as the second pass
    alone makes it (transparent if its RGB is (0,255,0), else unchanged). *)
Theorem one_corner_colour_result (img : image) (bg : pixel) (t : Z) :
  0 ≤ t → t < color_diff fill_value bg →
  (∀ s p, s ∈ seed_points img → getpixel img s = Some p → p = bg) →
  ∃ out, apply_matte img t = Some out ∧
    ∀ c q, in_bounds img c → getpixel img c = Some q →
      (corner_joined img bg t c ∧
       getpixel out c = Some (255, 255, 255, 0)) ∨
      (¬ corner_joined img bg t c ∧
       getpixel out c = Some (if is_chroma q then (255, 255, 255, 0) else q)).
Proof.
  intros Ht Hfar Hbg.
  destruct (fill_corners_same img bg t Ht Hfar Hbg) as (img' & Hrun & Hpix).
  exists (replace_chroma img'). unfold apply_matte. rewrite Hrun.
  split; [done|]. intros c q Hc Hq. rewrite getpixel_replace_chroma.
  destruct (Hpix c Hc) as [[-> Hj]|[-> Hn]]; [by left|right].
  split; [done|]. by rewrite Hq.
Qed.

Lemma one_corner_colour_result_witness :
  0 ≤ 10 ∧ 10 < color_diff fill_value white ∧
  (∀ s p, s ∈ seed_points scenario_4x4 → getpixel scenario_4x4 s = Some p →
          p = white) ∧
  ∃ out, apply_matte scenario_4x4 10 = Some out ∧
    ∀ c q, in_bounds scenario_4x4 c → getpixel scenario_4x4 c = Some q →
      (corner_joined scenario_4x4 white 10 c ∧
       getpixel out c = Some (255, 255, 255, 0)) ∨
      (¬ corner_joined scenario_4x4 white 10 c ∧
       getpixel out c = Some (if is_chroma q then (255, 255, 255, 0) else q)).
Proof.
  assert (Hcorners : ∀ s p, s ∈ seed_points scenario_4x4 →
                            getpixel scenario_4x4 s = Some p → p = white).
  { intros s p Hs.
    repeat (apply elem_of_cons in Hs as [->|Hs]);
      [..|by apply elem_of_nil in Hs]; vm_compute; congruence. }
  split; [lia|]. split; [vm_compute; reflexivity|]. split; [exact Hcorners|].
  apply (one_corner_colour_result scenario_4x4 white 10);
    [lia|vm_compute; reflexivity|exact Hcorners].
Defined.

(** X5: with a non-negative threshold, a corner pixel whose colour is
    further than the threshold from the fill value always comes out
    transparent. *)
Theorem far_corner_cleared (img : image) (t : Z) (s : coord) (bg : pixel) :
  0 ≤ t → s ∈ seed_points img → getpixel img s = Some bg →
  t < color_diff fill_value bg →
  ∃ out, apply_matte img t = Some out ∧
         getpixel out s = Some (255, 255, 255, 0).
Proof.
  intros Ht Hs Hbg Hfar.
  destruct (fill_from_clears_seed (seed_points img) img t s bg Ht)
    as (img' & Hrun & Hv); auto.
  { intros s'. apply seed_points_proper. }
  exists (replace_chroma img'). unfold apply_matte, fill_corners.
  rewrite Hrun. split; [done|].
  rewrite getpixel_replace_chroma, Hv. done.
Qed.

Lemma far_corner_cleared_witness :
  0 ≤ 5 ∧ (2, 0) ∈ seed_points detour_3x2 ∧
  getpixel detour_3x2 (2, 0) = Some (shade 110) ∧
  5 < color_diff fill_value (shade 110) ∧
  ∃ out, apply_matte detour_3x2 5 = Some out ∧
         getpixel out (2, 0) = Some (255, 255, 255, 0).
Proof.
  split; [lia|]. split; [right; left|]. split; [reflexivity|].
  split; [vm_compute; reflexivity|].
  apply (far_corner_cleared detour_3x2 5 (2, 0) (shade 110));
    [lia|right; left|reflexivity|vm_compute; reflexivity].
Defined.

Lemma fill_from_all_skipped seeds img t :
  (∀ s p, s ∈ seeds → getpixel img s = Some p →
          color_diff fill_value p ≤ t) →
  fill_from seeds img t = Some img.
Proof.
  induction seeds as [|s seeds IH]; intros Hnear; simpl; [done|].
  assert (Hskip : floodfill img s fill_value t = Some img).
  { destruct (getpixel img s) as [p|] eqn:Hp.
    - apply (floodfill_skip _ _ _ _ p); [done|]. apply (Hnear s); [left|done].
    - by apply floodfill_outside. }
  rewrite Hskip. simpl. apply IH. intros s' p Hs'. apply Hnear. by right.
Qed.

Lemma color_diff_eight_bit p : eight_bit p → color_diff fill_value p ≤ 1020.
Proof.
  destruct p as [[[r g] b] a]. unfold eight_bit, color_diff, fill_value. lia.
Qed.

(** X6: when every corner pixel is within the threshold of the fill value,
    no fill runs and the result is the input with only the pixels of RGB
    exactly (0,255,0) made transparent. *)
Theorem near_corners_second_pass_only (img : image) (t : Z) :
  (∀ s p, s ∈ seed_points img → getpixel img s = Some p →
          color_diff fill_value p ≤ t) →
  apply_matte img t = Some (replace_chroma img).
Proof.
  intros Hnear. unfold apply_matte, fill_corners.
  by rewrite fill_from_all_skipped.
Qed.

Lemma near_corners_second_pass_only_witness :
  (∀ s p, s ∈ seed_points greenish_2x2 → getpixel greenish_2x2 s = Some p →
          color_diff fill_value p ≤ 10) ∧
  apply_matte greenish_2x2 10 = Some (replace_chroma greenish_2x2).
Proof.
  assert (Hnear : ∀ s p, s ∈ seed_points greenish_2x2 →
                         getpixel greenish_2x2 s = Some p →
                         color_diff fill_value p ≤ 10).
  { intros s p Hs.
    repeat (apply elem_of_cons in Hs as [->|Hs]);
      [..|by apply elem_of_nil in Hs];
      intros [= <-]; vm_compute; discriminate. }
  split; [exact Hnear|].
  apply (near_corners_second_pass_only greenish_2x2 10). exact Hnear.
Defined.

(** X7: a threshold of 1020 or more switches the fills off: corner pixels
    of 8-bit bands are all within 1020 of the fill value, so no fill runs
    and only the pixels of RGB exactly (0,255,0) are made transparent. *)
Theorem large_threshold_switches_off (img : image) (t : Z) :
  1020 ≤ t →
  (∀ s p, s ∈ seed_points img → getpixel img s = Some p → eight_bit p) →
  apply_matte img t = Some (replace_chroma img).
Proof.
  intros Ht H8. unfold apply_matte, fill_corners.
  rewrite fill_from_all_skipped; [done|].
  intros s p Hs Hp. pose proof (color_diff_eight_bit p (H8 s p Hs Hp)). lia.
Qed.

Lemma large_threshold_switches_off_witness :
  1020 ≤ 1020 ∧
  (∀ s p, s ∈ seed_points scenario_4x4 →
          getpixel scenario_4x4 s = Some p → eight_bit p) ∧
  apply_matte scenario_4x4 1020 = Some (replace_chroma scenario_4x4).
Proof.
  assert (H8 : ∀ s p, s ∈ seed_points scenario_4x4 →
                      getpixel scenario_4x4 s = Some p → eight_bit p).
  { intros s p Hs.
    repeat (apply elem_of_cons in Hs as [->|Hs]);
      [..|by apply elem_of_nil in Hs];
      intros [= <-]; repeat split; discriminate. }
  split; [lia|]. split; [exact H8|].
  apply (large_threshold_switches_off scenario_4x4 1020); [lia|exact H8].
Defined.

(** X8: with a negative threshold the fills store to the four corner
    pixels and to nothing else: the corners come out transparent, and
    every other pixel is as the second pass alone makes it. *)
Theorem negative_threshold_corners_only (img : image) (t : Z) :
  t < 0 →
  ∃ out, apply_matte img t = Some out ∧
    ∀ c q, in_bounds img c → getpixel img c = Some q →
      getpixel out c
        = Some (if bool_decide (c ∈ seed_points img)
                then (255, 255, 255, 0)
                else if is_chroma q then (255, 255, 255, 0) else q).
Proof.
  intros Ht.
  destruct (fill_from_negative (seed_points img) img t Ht)
    as (img' & Hrun & _ & _ & Hpix); [intros s; apply seed_points_proper|].
  exists (replace_chroma img'). unfold apply_matte, fill_corners.
  rewrite Hrun. split; [done|]. intros c q Hc Hq.
  rewrite getpixel_replace_chroma, (Hpix c q Hc Hq). simpl.
  by destruct (bool_decide (c ∈ seed_points img)).
Qed.

Lemma negative_threshold_corners_only_witness :
  -1 < 0 ∧
  ∃ out, apply_matte scenario_4x4 (-1) = Some out ∧
    ∀ c q, in_bounds scenario_4x4 c → getpixel scenario_4x4 c = Some q →
      getpixel out c
        = Some (if bool_decide (c ∈ seed_points scenario_4x4)
                then (255, 255, 255, 0)
                else if is_chroma q then (255, 255, 255, 0) else q).
Proof.
  split; [lia|]. apply (negative_threshold_corners_only scenario_4x4 (-1)).
  lia.
Defined.

(** X9: with a non-negative threshold, a pixel whose RGB is not (0,255,0)
    and whose colour is further than the threshold from the colour of
    every corner pixel is left as it is, wherever it lies. *)
Theorem far_colours_kept (img : image) (t : Z) :
  0 ≤ t →
  ∃ out, apply_matte img t = Some out ∧
    ∀ c q, in_bounds img c → getpixel img c = Some q →
      is_chroma q = false →
      (∀ s bg, s ∈ seed_points img → getpixel img s = Some bg →
               t < color_diff q bg) →
      getpixel out c = Some q.
Proof.
  intros Ht. destruct (apply_matte_frame img t Ht) as (out & Hrun & Hkeep).
  exists out. split; [done|]. intros c q Hc Hq Hnot Hfar.
  rewrite (Hkeep c q Hc Hq).
  - unfold replace_item. by rewrite Hnot.
  - intros s Hs (bg & Hbg & _ & Hr).
    apply reach_close in Hr as (p & Hp & Hcl).
    rewrite Hq in Hp. injection Hp as <-.
    specialize (Hfar s bg Hs Hbg). lia.
Qed.

Lemma far_colours_kept_witness :
  0 ≤ 10 ∧
  ∃ out, apply_matte scenario_4x4 10 = Some out ∧
    ∀ c q, in_bounds scenario_4x4 c → getpixel scenario_4x4 c = Some q →
      is_chroma q = false →
      (∀ s bg, s ∈ seed_points scenario_4x4 →
               getpixel scenario_4x4 s = Some bg → 10 < color_diff q bg) →
      getpixel out c = Some q.
Proof. split; [lia|]. apply (far_colours_kept scenario_4x4 10). lia. Defined.

(** ** A single fill *)

(** X10: a fill from a seed it has already been run from changes nothing:
    with a non-negative threshold, running [floodfill] again on its own
    result, from the same seed, yields that result. *)
Theorem floodfill_twice
    (img : image) (s : coord) (value : pixel) (t : Z) (img' : image) :
  0 ≤ t → proper_seed img s →
  floodfill img s value t = Some img' →
  floodfill img' s value t = Some img'.
Proof.
  intros Ht Hprop Hrun.
  destruct (getpixel img s) as [bg|] eqn:Hbg.
  - destruct (Z.le_gt_cases (color_diff value bg) t) as [Hnear|Hfar].
    + rewrite (floodfill_skip _ _ _ _ bg) in Hrun by done.
      injection Hrun as <-. by apply (floodfill_skip _ _ _ _ bg).
    + assert (Hin : in_bounds img s) by (by eapply proper_seed_getpixel).
      destruct (floodfill_fills img s value t bg Hin Hbg Ht Hfar)
        as (img'' & Hrun' & _ & _ & _ & Hpix).
      rewrite Hrun in Hrun'. injection Hrun' as <-.
      apply (floodfill_skip _ _ _ _ value); [|by rewrite color_diff_refl].
      destruct (Hpix s Hin) as [[_ ?]|[Hn _]]; [done|].
      destruct Hn. eapply reach_seed; eauto. by rewrite color_diff_refl.
  - rewrite floodfill_outside in Hrun by done. injection Hrun as <-.
    by apply floodfill_outside.
Qed.

Lemma floodfill_twice_witness :
  0 ≤ 10 ∧ proper_seed scenario_4x4 (0, 0) ∧
  floodfill scenario_4x4 (0, 0) fill_value 10 = Some scenario_4x4_filled ∧
  floodfill scenario_4x4_filled (0, 0) fill_value 10
    = Some scenario_4x4_filled.
Proof.
  assert (Hprop : proper_seed scenario_4x4 (0, 0))
    by (apply seed_points_proper; left).
  split; [lia|]. split; [exact Hprop|]. split; [vm_compute; reflexivity|].
  apply (floodfill_twice scenario_4x4 (0, 0) fill_value 10
           scenario_4x4_filled);
    [lia|exact Hprop|vm_compute; reflexivity].
Defined.

(** X11: for a single fill, a larger threshold only adds pixels, as long
    as the fill runs: if the seed's colour is further than t2 from the fill
    colour and 0 <= t1 <= t2, every pixel that has the fill colour after
    the fill with t1 has it after the fill with t2. *)
Theorem single_fill_monotone
    (img : image) (s : coord) (value bg : pixel) (t1 t2 : Z)
    (img1 img2 : image) (c : coord) :
  0 ≤ t1 → t1 ≤ t2 → proper_seed img s → getpixel img s = Some bg →
  t2 < color_diff value bg →
  floodfill img s value t1 = Some img1 →
  floodfill img s value t2 = Some img2 →
  in_bounds img c → getpixel img1 c = Some value →
  getpixel img2 c = Some value.
Proof.
  intros Ht1 Ht12 Hprop Hbg Hfar Hrun1 Hrun2 Hc Hv.
  assert (Hin : in_bounds img s) by (by eapply proper_seed_getpixel).
  destruct (floodfill_fills img s value t1 bg Hin Hbg) as
    (img1' & Hrun1' & _ & _ & _ & Hpix1); [lia..|].
  destruct (floodfill_fills img s value t2 bg Hin Hbg) as
    (img2' & Hrun2' & _ & _ & _ & Hpix2); [lia..|].
  rewrite Hrun1 in Hrun1'. injection Hrun1' as <-.
  rewrite Hrun2 in Hrun2'. injection Hrun2' as <-.
  destruct (Hpix2 c Hc) as [[_ ?]|[Hn2 Heq2]]; [done|].
  destruct (Hpix1 c Hc) as [[Hr1 _]|[_ Heq1]].
  - destruct Hn2. by apply (reach_mono _ _ t1).
  - congruence.
Qed.

Lemma single_fill_monotone_witness :
  0 ≤ 5 ∧ 5 ≤ 10 ∧ proper_seed detour_3x2 (0, 0) ∧
  getpixel detour_3x2 (0, 0) = Some (shade 100) ∧
  10 < color_diff fill_value (shade 100) ∧
  in_bounds detour_3x2 (0, 1) ∧
  ∃ img1 img2,
    floodfill detour_3x2 (0, 0) fill_value 5 = Some img1 ∧
    floodfill detour_3x2 (0, 0) fill_value 10 = Some img2 ∧
    getpixel img1 (0, 1) = Some fill_value ∧
    getpixel img2 (0, 1) = Some fill_value.
Proof.
  assert (Hprop : proper_seed detour_3x2 (0, 0))
    by (apply seed_points_proper; left).
  split; [lia|]. split; [lia|]. split; [exact Hprop|].
  split; [reflexivity|]. split; [vm_compute; reflexivity|].
  split; [split; simpl; lia|].
  destruct (floodfill detour_3x2 (0, 0) fill_value 5) as [img1|] eqn:Hrun1;
    [|vm_compute in Hrun1; discriminate].
  destruct (floodfill detour_3x2 (0, 0) fill_value 10) as [img2|] eqn:Hrun2;
    [|vm_compute in Hrun2; discriminate].
  assert (Hv : getpixel img1 (0, 1) = Some fill_value).
  { vm_compute in Hrun1. injection Hrun1 as <-. reflexivity. }
  exists img1, img2. split; [reflexivity|]. split; [reflexivity|].
  split; [exact Hv|].
  apply (single_fill_monotone detour_3x2 (0, 0) fill_value (shade 100) 5 10
           img1 img2 (0, 1));
    [lia|lia|exact Hprop|reflexivity|vm_compute; reflexivity
    |exact Hrun1|exact Hrun2|split; simpl; lia|exact Hv].
Defined.

Lemma floodfill_any_order_witness :
  (∀ n X c, c ∈ backwards n X ↔ c ∈ X) ∧
  wf_image scenario_4x4 ∧ proper_seed scenario_4x4 (0, 0) ∧ 0 ≤ 10 ∧
  floodfill_in backwards scenario_4x4 (0, 0) fill_value 10
    = floodfill scenario_4x4 (0, 0) fill_value 10.
Proof.
  assert (Hback : ∀ n X c, c ∈ backwards n X ↔ c ∈ X).
  { intros n X c. unfold backwards.
    rewrite elem_of_reverse. apply elem_of_elements. }
  assert (Hwf : wf_image scenario_4x4) by (repeat split; simpl; lia).
  assert (Hprop : proper_seed scenario_4x4 (0, 0))
    by (apply seed_points_proper; left).
  split; [exact Hback|]. split; [exact Hwf|]. split; [exact Hprop|].
  split; [lia|].
  apply (floodfill_any_order backwards scenario_4x4 (0, 0) fill_value 10);
    [exact Hback|exact Hwf|exact Hprop|lia].
Defined.

(** ** The files found *)

Lemma length_append (a b : string) :
  String.length (a +:+ b) = (String.length a + String.length b)%nat.
Proof.
  induction a as [|c a IH]; [done|].
  rewrite append_cons. simpl. by rewrite IH.
Qed.

Lemma lowercase_length s : String.length (lowercase s) = String.length s.
Proof. induction s as [|c s IH]; simpl; [done|by rewrite IH]. Qed.

(** Of two ends of one string the shorter is an end of the longer. *)
Lemma append_suffix (f2 : string) : ∀ f1 t1 t2 : string,
  (f1 +:+ t1)%string = (f2 +:+ t2)%string →
  (String.length t1 ≤ String.length t2)%nat →
  ∃ g, t2 = (g +:+ t1)%string.
Proof.
  induction f2 as [|c f2 IH]; intros f1 t1 t2 Heq Hlen.
  - rewrite append_nil_l in Heq. by exists f1.
  - rewrite append_cons in Heq. destruct f1 as [|d f1].
    + rewrite append_nil_l in Heq. subst t1. simpl in Hlen.
      rewrite length_append in Hlen. lia.
    + rewrite append_cons in Heq. injection Heq as -> Heq. by eapply IH.
Qed.

Lemma extension_unique (e1 e2 name : string) :
  has_extension e1 name → has_extension e2 name →
  (String.length e1 ≤ String.length e2 ≤ S (String.length e1))%nat →
  (∀ rest, e2 ≠ String "." rest) →
  e1 = e2.
Proof.
  intros (f1 & s1 & -> & <-) (f2 & s2 & Heq & <-) Hlen Hdot.
  rewrite !lowercase_length in Hlen.
  destruct (append_suffix f2 f1 ("." +:+ s1) ("." +:+ s2) Heq) as [g Hg].
  { rewrite !append_cons, !append_nil_l. simpl. lia. }
  rewrite !append_cons, !append_nil_l in Hg.
  assert (Hglen : (String.length g + String.length s1
                   = String.length s2)%nat).
  { apply (f_equal String.length) in Hg.
    rewrite length_append in Hg. simpl in Hg. lia. }
  destruct g as [|c [|c' g]].
  - rewrite append_nil_l in Hg. by injection Hg as ->.
  - rewrite append_cons, append_nil_l in Hg. injection Hg as _ ->.
    destruct (Hdot (lowercase s1)). reflexivity.
  - simpl in Hglen. lia.
Qed.

Lemma extensions_apart name :
  (has_extension "png" name → has_extension "jpg" name → False) ∧
  (has_extension "png" name → has_extension "jpeg" name → False) ∧
  (has_extension "jpg" name → has_extension "jpeg" name → False).
Proof.
  repeat split; intros H1 H2;
    pose proof (extension_unique _ _ name H1 H2) as Heq;
    (discriminate Heq; [simpl; lia|intros rest; discriminate]).
Qed.

(** X13: the three globs find the entries that are image names, and only
    them: a name is taken up if and only if it is an entry of the
    directory and ends in a dot followed by png, jpg or jpeg, in any mix
    of upper and lower case. *)
Theorem image_files_exactly (entries : list string) (name : string) :
  name ∈ find_image_files entries ↔ name ∈ entries ∧ is_image_name name.
Proof.
  unfold find_image_files, glob, is_image_name.
  rewrite !elem_of_app, !list_elem_of_filter.
  rewrite png_pattern_spec, jpg_pattern_spec, jpeg_pattern_spec.
  tauto.
Qed.

(** X14: no file is taken up twice: the three patterns exclude one
    another, so a directory listing without repetition gives a list of
    image files without repetition. *)
Theorem image_files_nodup (entries : list string) :
  NoDup entries → NoDup (find_image_files entries).
Proof.
  intros Hnd. unfold find_image_files, glob.
  apply NoDup_app. split; [by apply NoDup_filter|]. split.
  - intros name [Hpng _]%list_elem_of_filter Hin.
    apply png_pattern_spec in Hpng.
    destruct (extensions_apart name) as (Hpj & Hpe & _).
    apply elem_of_app in Hin as [[Hjpg _]%list_elem_of_filter
                                |[Hjpeg _]%list_elem_of_filter].
    + apply jpg_pattern_spec in Hjpg. auto.
    + apply jpeg_pattern_spec in Hjpeg. auto.
  - apply NoDup_app. split; [by apply NoDup_filter|].
    split; [|by apply NoDup_filter].
    intros name [Hjpg _]%list_elem_of_filter [Hjpeg _]%list_elem_of_filter.
    apply jpg_pattern_spec in Hjpg. apply jpeg_pattern_spec in Hjpeg.
    destruct (extensions_apart name) as (_ & _ & Hje). auto.
Qed.

Lemma image_files_nodup_witness :
  NoDup (three_entries []) ∧ NoDup (find_image_files (three_entries [])).
Proof.
  assert (Hnd : NoDup (three_entries [])).
  { unfold three_entries. repeat constructor;
      rewrite ?elem_of_cons, ?elem_of_nil; intros H;
      repeat destruct H as [H|H]; done || discriminate. }
  split; [exact Hnd|]. apply (image_files_nodup (three_entries [])).
  exact Hnd.
Defined.

(** ** The batch driver *)


Lemma for_each_unreadable {world exn : Type}
    (image_open : string → world → exn + image)
    (image_save : string → image → world → option exn * world)
    (stem : string → string) (threshold : Z) (err : string → exn)
    (w : world) (files : list string) : ∀ l,
  (∀ name, name ∈ files → image_open name w = inl (err name)) →
  for_each files (λ img_path,
      try_except
        (_process_single_image image_open image_save stem threshold img_path)
        (λ e, log (error_failed img_path e))) (State w l)
    = (Returned (),
       State w (l ++ map (λ name, error_failed name (err name)) files)).
Proof.
  induction files as [|name files IH]; intros l Hopen.
  - simpl. by rewrite app_nil_r.
  - cbn [for_each]. unfold mbind at 1, M_bind at 1.
    unfold try_except at 1, _process_single_image at 1, open_rgba at 1.
    unfold mbind at 1, M_bind at 1. simpl.
    rewrite (Hopen name) by left. simpl.
    rewrite IH by (intros n Hn; apply Hopen; by right).
    simpl. by rewrite <- app_assoc.
Qed.

(** X16: when none of the image files found can be opened, nothing is
    saved: the file system is left as it was, and the log gets the start
    message, one error record per file in the order of the files, and the
    completion message. *)
Theorem batch_all_unreadable {world exn : Type}
    (listdir : world → list string)
    (image_open : string → world → exn + image)
    (image_save : string → image → world → option exn * world)
    (stem : string → string) (input_path output_path : string)
    (threshold : Z) (err : string → exn) (st : @state world exn) :
  find_image_files (listdir (st_world st)) ≠ [] →
  (∀ name, name ∈ find_image_files (listdir (st_world st)) →
           image_open name (st_world st) = inl (err name)) →
  process_directory listdir image_open image_save stem
      input_path output_path threshold st
    = (Returned (),
       State (st_world st)
             (st_log st ++ [info_start input_path output_path]
              ++ map (λ name, error_failed name (err name))
                     (find_image_files (listdir (st_world st)))
              ++ [info_done])).
Proof.
  intros Hfound Hopen.
  pose proof (for_each_unreadable image_open image_save stem threshold err
                (st_world st) _
                (st_log st ++ [info_start input_path output_path]) Hopen)
    as Hloop.
  unfold process_directory, image_files_found, log, mbind, M_bind in *.
  simpl in *.
  destruct (find_image_files (listdir (st_world st))) as [|name files];
    [done|].
  rewrite Hloop. simpl. by rewrite <- !app_assoc.
Qed.

Lemma batch_all_unreadable_witness :
  find_image_files (three_entries []) ≠ [] ∧
  (∀ name, name ∈ find_image_files (three_entries []) →
           open_never name []
             = inl ("cannot identify image file " +:+ name)%string) ∧
  process_directory three_entries open_never save_always id
      "images" "output" 100 (State [] [])
    = (Returned (),
       State []
             ([] ++ [info_start "images" "output"]
              ++ map (λ name, error_failed name
                        ("cannot identify image file " +:+ name)%string)
                     (find_image_files (three_entries []))
              ++ [info_done])).
Proof.
  split; [vm_compute; discriminate|]. split; [reflexivity|].
  apply (batch_all_unreadable three_entries open_never save_always id
           "images" "output" 100
           (λ name, ("cannot identify image file " +:+ name)%string)
           (State [] []));
    [vm_compute; discriminate|reflexivity].
Defined.

(** ** [Path.stem] and the names of the files saved *)

Lemma rfind_lowercase s : rfind "." (lowercase s) = rfind "." s.
Proof.
  induction s as [|c s IH]; simpl; [done|]. rewrite IH.
  destruct (rfind "." s); [done|].
  by destruct c as [[] [] [] [] [] [] [] []].
Qed.

Lemma rfind_front (front suffix : string) :
  rfind "." suffix = None →
  rfind "." (front +:+ "." +:+ suffix) = Some (String.length front).
Proof.
  intros Hs. induction front as [|c front IH].
  - rewrite append_nil_l, append_cons, append_nil_l. simpl. by rewrite Hs.
  - rewrite append_cons. simpl. by rewrite IH.
Qed.

Lemma substring_front (front rest : string) :
  String.substring 0 (String.length front) (front +:+ rest) = front.
Proof.
  induction front as [|c front IH].
  - rewrite append_nil_l. by destruct rest.
  - rewrite append_cons. simpl. by rewrite IH.
Qed.

Lemma path_stem_front (front suffix : string) :
  front ≠ EmptyString → suffix ≠ EmptyString → rfind "." suffix = None →
  path_stem (front +:+ "." +:+ suffix) = front.
Proof.
  intros Hfront Hsuffix Hdot. unfold path_stem.
  rewrite rfind_front by done. rewrite !length_append.
  assert (Hf : (0 < String.length front)%nat)
    by (destruct front; [done|simpl; lia]).
  assert (Hs : (0 < String.length suffix)%nat)
    by (destruct suffix; [done|simpl; lia]).
  destruct (Nat.ltb_spec 0 (String.length front)); [|lia].
  destruct (Nat.ltb_spec (String.length front)
              (String.length front
               + (String.length "." + String.length suffix) - 1));
    [|simpl in *; lia].
  simpl. apply substring_front.
Qed.

Lemma image_suffix_plain (suffix : string) :
  lowercase suffix = "png"%string ∨ lowercase suffix = "jpg"%string ∨
  lowercase suffix = "jpeg"%string →
  suffix ≠ EmptyString ∧ rfind "." suffix = None.
Proof.
  intros H. split.
  - intros ->. simpl in H. by destruct H as [|[|]].
  - rewrite <- rfind_lowercase. by destruct H as [-> |[-> | ->]].
Qed.

(** X17: the name a result is saved under does not tell the extension of
    the input.  With pathlib's stem, an image file name with something
    before its last dot has that part as its stem, so two image files of
    one directory that differ in their extension only (a.png, a.JPG) are
    saved under the same name, a_transparent.png. *)
Theorem same_front_same_output (front suffix1 suffix2 : string) :
  front ≠ EmptyString →
  lowercase suffix1 = "png"%string ∨ lowercase suffix1 = "jpg"%string ∨
  lowercase suffix1 = "jpeg"%string →
  lowercase suffix2 = "png"%string ∨ lowercase suffix2 = "jpg"%string ∨
  lowercase suffix2 = "jpeg"%string →
  path_stem (front +:+ "." +:+ suffix1) = front ∧
  (path_stem (front +:+ "." +:+ suffix1) +:+ "_transparent.png")%string
    = (path_stem (front +:+ "." +:+ suffix2) +:+ "_transparent.png")%string.
Proof.
  intros Hfront H1 H2.
  destruct (image_suffix_plain _ H1), (image_suffix_plain _ H2).
  by rewrite !path_stem_front.
Qed.

Lemma same_front_same_output_witness :
  "a"%string ≠ EmptyString ∧
  (lowercase "png" = "png"%string ∨ lowercase "png" = "jpg"%string ∨
   lowercase "png" = "jpeg"%string) ∧
  (lowercase "JPG" = "png"%string ∨ lowercase "JPG" = "jpg"%string ∨
   lowercase "JPG" = "jpeg"%string) ∧
  path_stem ("a" +:+ "." +:+ "png") = "a"%string ∧
  (path_stem ("a" +:+ "." +:+ "png") +:+ "_transparent.png")%string
    = (path_stem ("a" +:+ "." +:+ "JPG") +:+ "_transparent.png")%string.
Proof.
  split; [discriminate|]. split; [left; reflexivity|].
  split; [right; left; reflexivity|].
  apply (same_front_same_output "a" "png" "JPG");
    [discriminate|left; reflexivity|right; left; reflexivity].
Defined.

(** A name that is nothing but a dot and an extension is its own stem. *)
Example path_stem_hidden : path_stem ".png" = ".png"%string.
Proof. reflexivity. Qed.

Example path_stem_two_dots :
  path_stem "archive.tar.jpeg" = "archive.tar"%string.
Proof. reflexivity. Qed.
